(** * astor: a mutation-capable traversal engine for Go syntax trees

    The development embeds the two traversal engines of the repository:

    - [walk.go]: the free function [Inspect] and its four child-list
      helpers, together with the [Inspector] whose [Visit] returns only the
      continuation (module [Walk]);
    - the [Inspector] whose [Visit] returns the replacement together with
      the continuation and whose [Inspect] is a method (module [Impl]).

    The dispatch switch is the same text in both; it is embedded once, as
    [inspectChildren], parameterised by the recursive call.

    Modelling decisions.
    - Nodes are values.  The engine assigns the result of each recursive
      call to the field it came from and returns the node it dispatched on;
      here it returns the node rebuilt from these results.  On a tree (no
      node reachable along two paths) the two readings agree.
    - A visitor acts on the inspector through [Current] and [Replace] and
      keeps state in its closure.  Assignments a visitor makes directly to
      the fields of a node it was handed are not engine behaviour and are
      not modelled; such a visitor is rendered as one that passes the
      modified node to [Replace].
    - The recursion of the method follows the replacement, which the
      visitor chooses, so [Inspect] takes the depth of stack it may use
      ([fuel]); [Exhausted] is the outcome of a traversal that needs more.
    - A panic ends the traversal; what [fmt.Printf] wrote before it is not
      recorded.  The mutex has no sequential content. *)

From Stdlib Require Import String List Bool Arith Lia.
Import ListNotations.
Open Scope string_scope.
Open Scope list_scope.

Set Implicit Arguments.

(** ** The syntax tree of [go/ast] *)

Module ast.

(** Leaf data of a node (positions, tokens, names, literal text).  The engine
    never reads it; it is carried along as one payload per node. *)
Definition Leaf := string.

(** The four node interfaces of [go/ast]. *)
Inductive Iface : Type := IExpr | IStmt | IDecl | ISpec.

(** A value of interface type [ast.Node].  One constructor per struct of
    [go/ast] named by the dispatch switch, with the fields the switch reads.
    A field the switch guards with [!= nil] is an [option]; every other
    single child is a node, as the package documents it (a nil pointer
    stored in such a field is outside the model).  [Package.Files] is
    a Go map: the association list gives its entries in the order in which
    [range] happens to yield them.  [File.Comments] is kept because the
    switch names it (to leave it alone).  [Foreign] is any other
    implementation of [ast.Node], with the interfaces it implements. *)
#[local] Unset Elimination Schemes.
Inductive Node : Type :=
| Comment (d : Leaf)
| CommentGroup (d : Leaf) (lst : list Node)
| Field (d : Leaf) (doc : option Node) (names : list Node) (typ : Node) (tag : option Node) (comment : option Node)
| FieldList (d : Leaf) (lst : list Node)
| BadExpr (d : Leaf)
| Ident (d : Leaf)
| BasicLit (d : Leaf)
| Ellipsis (d : Leaf) (elt : option Node)
| FuncLit (d : Leaf) (typ : Node) (body : Node)
| CompositeLit (d : Leaf) (typ : option Node) (elts : list Node)
| ParenExpr (d : Leaf) (x : Node)
| SelectorExpr (d : Leaf) (x : Node) (sel : Node)
| IndexExpr (d : Leaf) (x : Node) (index : Node)
| SliceExpr (d : Leaf) (x : Node) (low : option Node) (high : option Node) (max : option Node)
| TypeAssertExpr (d : Leaf) (x : Node) (typ : option Node)
| CallExpr (d : Leaf) (fn : Node) (args : list Node)
| StarExpr (d : Leaf) (x : Node)
| UnaryExpr (d : Leaf) (x : Node)
| BinaryExpr (d : Leaf) (x : Node) (y : Node)
| KeyValueExpr (d : Leaf) (key : Node) (value : Node)
| ArrayType (d : Leaf) (len : option Node) (elt : Node)
| StructType (d : Leaf) (fields : Node)
| FuncType (d : Leaf) (params : option Node) (results : option Node)
| InterfaceType (d : Leaf) (methods : Node)
| MapType (d : Leaf) (key : Node) (value : Node)
| ChanType (d : Leaf) (value : Node)
| BadStmt (d : Leaf)
| DeclStmt (d : Leaf) (decl : Node)
| EmptyStmt (d : Leaf)
| LabeledStmt (d : Leaf) (label : Node) (stmt : Node)
| ExprStmt (d : Leaf) (x : Node)
| SendStmt (d : Leaf) (chan : Node) (value : Node)
| IncDecStmt (d : Leaf) (x : Node)
| AssignStmt (d : Leaf) (lhs : list Node) (rhs : list Node)
| GoStmt (d : Leaf) (call : Node)
| DeferStmt (d : Leaf) (call : Node)
| ReturnStmt (d : Leaf) (results : list Node)
| BranchStmt (d : Leaf) (label : option Node)
| BlockStmt (d : Leaf) (lst : list Node)
| IfStmt (d : Leaf) (init : option Node) (cond : Node) (body : Node) (els : option Node)
| CaseClause (d : Leaf) (lst : list Node) (body : list Node)
| SwitchStmt (d : Leaf) (init : option Node) (tag : option Node) (body : Node)
| TypeSwitchStmt (d : Leaf) (init : option Node) (assign : Node) (body : Node)
| CommClause (d : Leaf) (comm : option Node) (body : list Node)
| SelectStmt (d : Leaf) (body : Node)
| ForStmt (d : Leaf) (init : option Node) (cond : option Node) (post : option Node) (body : Node)
| RangeStmt (d : Leaf) (key : option Node) (value : option Node) (x : Node) (body : Node)
| ImportSpec (d : Leaf) (doc : option Node) (name : option Node) (path : Node) (comment : option Node)
| ValueSpec (d : Leaf) (doc : option Node) (names : list Node) (typ : option Node) (values : list Node) (comment : option Node)
| TypeSpec (d : Leaf) (doc : option Node) (name : Node) (typ : Node) (comment : option Node)
| BadDecl (d : Leaf)
| GenDecl (d : Leaf) (doc : option Node) (specs : list Node)
| FuncDecl (d : Leaf) (doc : option Node) (recv : option Node) (name : Node) (typ : Node) (body : option Node)
| File (d : Leaf) (doc : option Node) (name : Node) (decls : list Node) (comments : list Node)
| Package (d : Leaf) (files : list (string * Node))
| Foreign (name : string) (impl : list Iface).
#[local] Set Elimination Schemes.

(** ** Static types of child slots and the type assertions on them *)

Inductive GoType : Type :=
| TyComment | TyCommentGroup | TyField | TyFieldList | TyIdent | TyBasicLit
| TyFuncType | TyBlockStmt | TyCallExpr | TyFile
| TyExpr | TyStmt | TyDecl | TySpec.

Definition Iface_eqb (a b : Iface) : bool :=
  match a, b with
  | IExpr, IExpr | IStmt, IStmt | IDecl, IDecl | ISpec, ISpec => true
  | _, _ => false
  end.

Definition isExpr (n : Node) : bool :=
  match n with
  | BadExpr _ | Ident _ | Ellipsis _ _ | BasicLit _ | FuncLit _ _ _
  | CompositeLit _ _ _ | ParenExpr _ _ | SelectorExpr _ _ _ | IndexExpr _ _ _
  | SliceExpr _ _ _ _ _ | TypeAssertExpr _ _ _ | CallExpr _ _ _ | StarExpr _ _
  | UnaryExpr _ _ | BinaryExpr _ _ _ | KeyValueExpr _ _ _
  | ArrayType _ _ _ | StructType _ _ | FuncType _ _ _ | InterfaceType _ _
  | MapType _ _ _ | ChanType _ _ => true
  | Foreign _ impl => existsb (Iface_eqb IExpr) impl
  | _ => false
  end.

Definition isStmt (n : Node) : bool :=
  match n with
  | BadStmt _ | DeclStmt _ _ | EmptyStmt _ | LabeledStmt _ _ _ | ExprStmt _ _
  | SendStmt _ _ _ | IncDecStmt _ _ | AssignStmt _ _ _ | GoStmt _ _
  | DeferStmt _ _ | ReturnStmt _ _ | BranchStmt _ _ | BlockStmt _ _
  | IfStmt _ _ _ _ _ | CaseClause _ _ _ | SwitchStmt _ _ _ _
  | TypeSwitchStmt _ _ _ _ | CommClause _ _ _ | SelectStmt _ _
  | ForStmt _ _ _ _ _ | RangeStmt _ _ _ _ _ => true
  | Foreign _ impl => existsb (Iface_eqb IStmt) impl
  | _ => false
  end.

Definition isDecl (n : Node) : bool :=
  match n with
  | BadDecl _ | GenDecl _ _ _ | FuncDecl _ _ _ _ _ _ => true
  | Foreign _ impl => existsb (Iface_eqb IDecl) impl
  | _ => false
  end.

Definition isSpec (n : Node) : bool :=
  match n with
  | ImportSpec _ _ _ _ _ | ValueSpec _ _ _ _ _ _ | TypeSpec _ _ _ _ _ => true
  | Foreign _ impl => existsb (Iface_eqb ISpec) impl
  | _ => false
  end.

(** [conforms t n]: the type assertion [n.(t)] succeeds on the non-nil
    interface value [n]. *)
Definition conforms (t : GoType) (n : Node) : bool :=
  match t, n with
  | TyComment, Comment _ => true
  | TyCommentGroup, CommentGroup _ _ => true
  | TyField, Field _ _ _ _ _ _ => true
  | TyFieldList, FieldList _ _ => true
  | TyIdent, Ident _ => true
  | TyBasicLit, BasicLit _ => true
  | TyFuncType, FuncType _ _ _ => true
  | TyBlockStmt, BlockStmt _ _ => true
  | TyCallExpr, CallExpr _ _ _ => true
  | TyFile, File _ _ _ _ _ => true
  | TyExpr, _ => isExpr n
  | TyStmt, _ => isStmt n
  | TyDecl, _ => isDecl n
  | TySpec, _ => isSpec n
  | _, _ => false
  end.

(** The variants the dispatch switch enumerates. *)
Definition enumerated (n : Node) : bool :=
  match n with Foreign _ _ => false | _ => true end.

(** ** Child slots

    A child slot of a node: a single child, a child that may be absent, or
    an ordered list of children, each with the static type of the field. *)
Inductive Slot : Type :=
| One (t : GoType) (x : Node)
| Opt (t : GoType) (o : option Node)
| Many (t : GoType) (l : list Node).

Definition slotType (s : Slot) : GoType :=
  match s with One t _ | Opt t _ | Many t _ => t end.

Definition slotNodes (s : Slot) : list Node :=
  match s with
  | One _ x => [x]
  | Opt _ (Some x) => [x]
  | Opt _ None => []
  | Many _ l => l
  end.

(** The child fields of each variant in the order of their declaration,
    which is the order of traversal.  [File.Comments] is not among them. *)
Definition slots (n : Node) : list Slot :=
  match n with
  | Comment _ => []
  | CommentGroup _ lst => [Many TyComment lst]
  | Field _ doc names typ tag comment => [Opt TyCommentGroup doc; Many TyIdent names; One TyExpr typ; Opt TyBasicLit tag; Opt TyCommentGroup comment]
  | FieldList _ lst => [Many TyField lst]
  | BadExpr _ => []
  | Ident _ => []
  | BasicLit _ => []
  | Ellipsis _ elt => [Opt TyExpr elt]
  | FuncLit _ typ body => [One TyFuncType typ; One TyBlockStmt body]
  | CompositeLit _ typ elts => [Opt TyExpr typ; Many TyExpr elts]
  | ParenExpr _ x => [One TyExpr x]
  | SelectorExpr _ x sel => [One TyExpr x; One TyIdent sel]
  | IndexExpr _ x index => [One TyExpr x; One TyExpr index]
  | SliceExpr _ x low high max => [One TyExpr x; Opt TyExpr low; Opt TyExpr high; Opt TyExpr max]
  | TypeAssertExpr _ x typ => [One TyExpr x; Opt TyExpr typ]
  | CallExpr _ fn args => [One TyExpr fn; Many TyExpr args]
  | StarExpr _ x => [One TyExpr x]
  | UnaryExpr _ x => [One TyExpr x]
  | BinaryExpr _ x y => [One TyExpr x; One TyExpr y]
  | KeyValueExpr _ key value => [One TyExpr key; One TyExpr value]
  | ArrayType _ len elt => [Opt TyExpr len; One TyExpr elt]
  | StructType _ fields => [One TyFieldList fields]
  | FuncType _ params results => [Opt TyFieldList params; Opt TyFieldList results]
  | InterfaceType _ methods => [One TyFieldList methods]
  | MapType _ key value => [One TyExpr key; One TyExpr value]
  | ChanType _ value => [One TyExpr value]
  | BadStmt _ => []
  | DeclStmt _ decl => [One TyDecl decl]
  | EmptyStmt _ => []
  | LabeledStmt _ label stmt => [One TyIdent label; One TyStmt stmt]
  | ExprStmt _ x => [One TyExpr x]
  | SendStmt _ chan value => [One TyExpr chan; One TyExpr value]
  | IncDecStmt _ x => [One TyExpr x]
  | AssignStmt _ lhs rhs => [Many TyExpr lhs; Many TyExpr rhs]
  | GoStmt _ call => [One TyCallExpr call]
  | DeferStmt _ call => [One TyCallExpr call]
  | ReturnStmt _ results => [Many TyExpr results]
  | BranchStmt _ label => [Opt TyIdent label]
  | BlockStmt _ lst => [Many TyStmt lst]
  | IfStmt _ init cond body els => [Opt TyStmt init; One TyExpr cond; One TyBlockStmt body; Opt TyStmt els]
  | CaseClause _ lst body => [Many TyExpr lst; Many TyStmt body]
  | SwitchStmt _ init tag body => [Opt TyStmt init; Opt TyExpr tag; One TyBlockStmt body]
  | TypeSwitchStmt _ init assign body => [Opt TyStmt init; One TyStmt assign; One TyBlockStmt body]
  | CommClause _ comm body => [Opt TyStmt comm; Many TyStmt body]
  | SelectStmt _ body => [One TyBlockStmt body]
  | ForStmt _ init cond post body => [Opt TyStmt init; Opt TyExpr cond; Opt TyStmt post; One TyBlockStmt body]
  | RangeStmt _ key value x body => [Opt TyExpr key; Opt TyExpr value; One TyExpr x; One TyBlockStmt body]
  | ImportSpec _ doc name path comment => [Opt TyCommentGroup doc; Opt TyIdent name; One TyBasicLit path; Opt TyCommentGroup comment]
  | ValueSpec _ doc names typ values comment => [Opt TyCommentGroup doc; Many TyIdent names; Opt TyExpr typ; Many TyExpr values; Opt TyCommentGroup comment]
  | TypeSpec _ doc name typ comment => [Opt TyCommentGroup doc; One TyIdent name; One TyExpr typ; Opt TyCommentGroup comment]
  | BadDecl _ => []
  | GenDecl _ doc specs => [Opt TyCommentGroup doc; Many TySpec specs]
  | FuncDecl _ doc recv name typ body => [Opt TyCommentGroup doc; Opt TyFieldList recv; One TyIdent name; One TyFuncType typ; Opt TyBlockStmt body]
  | File _ doc name decls _ => [Opt TyCommentGroup doc; One TyIdent name; Many TyDecl decls]
  | Package _ files => [Many TyFile (map snd files)]
  | Foreign _ _ => []
  end.

(** The children of a node, left to right. *)
Definition children (n : Node) : list Node := flat_map slotNodes (slots n).

(** [rebuild n ss]: the node [n] after its child fields were assigned the
    values [ss]. *)
Definition rebuild (n : Node) (ss : list Slot) : Node :=
  match n with
  | CommentGroup d _ =>
      match ss with [Many _ lst] => CommentGroup d lst | _ => n end
  | Field d _ _ _ _ _ =>
      match ss with [Opt _ doc; Many _ names; One _ typ; Opt _ tag; Opt _ comment] => Field d doc names typ tag comment | _ => n end
  | FieldList d _ =>
      match ss with [Many _ lst] => FieldList d lst | _ => n end
  | Ellipsis d _ =>
      match ss with [Opt _ elt] => Ellipsis d elt | _ => n end
  | FuncLit d _ _ =>
      match ss with [One _ typ; One _ body] => FuncLit d typ body | _ => n end
  | CompositeLit d _ _ =>
      match ss with [Opt _ typ; Many _ elts] => CompositeLit d typ elts | _ => n end
  | ParenExpr d _ =>
      match ss with [One _ x] => ParenExpr d x | _ => n end
  | SelectorExpr d _ _ =>
      match ss with [One _ x; One _ sel] => SelectorExpr d x sel | _ => n end
  | IndexExpr d _ _ =>
      match ss with [One _ x; One _ index] => IndexExpr d x index | _ => n end
  | SliceExpr d _ _ _ _ =>
      match ss with [One _ x; Opt _ low; Opt _ high; Opt _ max] => SliceExpr d x low high max | _ => n end
  | TypeAssertExpr d _ _ =>
      match ss with [One _ x; Opt _ typ] => TypeAssertExpr d x typ | _ => n end
  | CallExpr d _ _ =>
      match ss with [One _ fn; Many _ args] => CallExpr d fn args | _ => n end
  | StarExpr d _ =>
      match ss with [One _ x] => StarExpr d x | _ => n end
  | UnaryExpr d _ =>
      match ss with [One _ x] => UnaryExpr d x | _ => n end
  | BinaryExpr d _ _ =>
      match ss with [One _ x; One _ y] => BinaryExpr d x y | _ => n end
  | KeyValueExpr d _ _ =>
      match ss with [One _ key; One _ value] => KeyValueExpr d key value | _ => n end
  | ArrayType d _ _ =>
      match ss with [Opt _ len; One _ elt] => ArrayType d len elt | _ => n end
  | StructType d _ =>
      match ss with [One _ fields] => StructType d fields | _ => n end
  | FuncType d _ _ =>
      match ss with [Opt _ params; Opt _ results] => FuncType d params results | _ => n end
  | InterfaceType d _ =>
      match ss with [One _ methods] => InterfaceType d methods | _ => n end
  | MapType d _ _ =>
      match ss with [One _ key; One _ value] => MapType d key value | _ => n end
  | ChanType d _ =>
      match ss with [One _ value] => ChanType d value | _ => n end
  | DeclStmt d _ =>
      match ss with [One _ decl] => DeclStmt d decl | _ => n end
  | LabeledStmt d _ _ =>
      match ss with [One _ label; One _ stmt] => LabeledStmt d label stmt | _ => n end
  | ExprStmt d _ =>
      match ss with [One _ x] => ExprStmt d x | _ => n end
  | SendStmt d _ _ =>
      match ss with [One _ chan; One _ value] => SendStmt d chan value | _ => n end
  | IncDecStmt d _ =>
      match ss with [One _ x] => IncDecStmt d x | _ => n end
  | AssignStmt d _ _ =>
      match ss with [Many _ lhs; Many _ rhs] => AssignStmt d lhs rhs | _ => n end
  | GoStmt d _ =>
      match ss with [One _ call] => GoStmt d call | _ => n end
  | DeferStmt d _ =>
      match ss with [One _ call] => DeferStmt d call | _ => n end
  | ReturnStmt d _ =>
      match ss with [Many _ results] => ReturnStmt d results | _ => n end
  | BranchStmt d _ =>
      match ss with [Opt _ label] => BranchStmt d label | _ => n end
  | BlockStmt d _ =>
      match ss with [Many _ lst] => BlockStmt d lst | _ => n end
  | IfStmt d _ _ _ _ =>
      match ss with [Opt _ init; One _ cond; One _ body; Opt _ els] => IfStmt d init cond body els | _ => n end
  | CaseClause d _ _ =>
      match ss with [Many _ lst; Many _ body] => CaseClause d lst body | _ => n end
  | SwitchStmt d _ _ _ =>
      match ss with [Opt _ init; Opt _ tag; One _ body] => SwitchStmt d init tag body | _ => n end
  | TypeSwitchStmt d _ _ _ =>
      match ss with [Opt _ init; One _ assign; One _ body] => TypeSwitchStmt d init assign body | _ => n end
  | CommClause d _ _ =>
      match ss with [Opt _ comm; Many _ body] => CommClause d comm body | _ => n end
  | SelectStmt d _ =>
      match ss with [One _ body] => SelectStmt d body | _ => n end
  | ForStmt d _ _ _ _ =>
      match ss with [Opt _ init; Opt _ cond; Opt _ post; One _ body] => ForStmt d init cond post body | _ => n end
  | RangeStmt d _ _ _ _ =>
      match ss with [Opt _ key; Opt _ value; One _ x; One _ body] => RangeStmt d key value x body | _ => n end
  | ImportSpec d _ _ _ _ =>
      match ss with [Opt _ doc; Opt _ name; One _ path; Opt _ comment] => ImportSpec d doc name path comment | _ => n end
  | ValueSpec d _ _ _ _ _ =>
      match ss with [Opt _ doc; Many _ names; Opt _ typ; Many _ values; Opt _ comment] => ValueSpec d doc names typ values comment | _ => n end
  | TypeSpec d _ _ _ _ =>
      match ss with [Opt _ doc; One _ name; One _ typ; Opt _ comment] => TypeSpec d doc name typ comment | _ => n end
  | GenDecl d _ _ =>
      match ss with [Opt _ doc; Many _ specs] => GenDecl d doc specs | _ => n end
  | FuncDecl d _ _ _ _ _ =>
      match ss with [Opt _ doc; Opt _ recv; One _ name; One _ typ; Opt _ body] => FuncDecl d doc recv name typ body | _ => n end
  | File d _ _ _ comments =>
      match ss with [Opt _ doc; One _ name; Many _ decls] => File d doc name decls comments | _ => n end
  | Package d files =>
      match ss with [Many _ fs] => Package d (combine (map fst files) fs) | _ => n end
  | _ => n
  end.

End ast.

(** ** The inspector and the visitor *)

Import ast.

(** One invocation of the visitor as the engine saw it: the node passed, the
    cursor the callback left behind, and the answer.  The engine keeps no
    such record; the history below exists to state which calls were made. *)
Record Call : Type := mkCall {
  callArg : option Node;
  callLeft : option Node;
  callRecurse : bool
}.

Section Inspector.

(** The variables captured by the visitor closure. *)
Variable VState : Type.

(** [inspectorImpl]: the cursor [node], next to it the state of the visitor
    closure it holds and the history of the calls made so far.  The mutex
    guards one [Visit] against another and has no sequential content. *)
Record inspectorImpl : Type := mkInspector {
  node : option Node;
  closure : VState;
  history : list Call
}.

Definition Current (i : inspectorImpl) : option Node := node i.

Definition Replace (n : option Node) (i : inspectorImpl) : inspectorImpl :=
  mkInspector n (closure i) (history i).

Definition record (c : Call) (i : inspectorImpl) : inspectorImpl :=
  mkInspector (node i) (closure i) (history i ++ [c]).

(** The body of a visitor: a sequence of calls to [Current] and [Replace] on
    the inspector it was handed, ended by the new state of its closure and
    its answer. *)
Inductive Callback : Type :=
| DoCurrent (k : option Node -> Callback)
| DoReplace (n : option Node) (k : Callback)
| Return (s : VState) (recurse : bool).

Definition Visitor : Type := VState -> option Node -> Callback.

Fixpoint call (c : Callback) (i : inspectorImpl) : inspectorImpl * bool :=
  match c with
  | DoCurrent k => call (k (Current i)) i
  | DoReplace n k => call k (Replace n i)
  | Return s recurse => (mkInspector (node i) s (history i), recurse)
  end.

(** ** Outcomes of the engine *)

Inductive Panic : Type :=
| UnexpectedNodeType   (* panic("astor.Inspect") of the default case *)
| TypeAssertion.       (* a failed x.(T) *)

(** A run returns, panics, or needs a deeper stack than [fuel] allows. *)
Inductive Outcome (A : Type) : Type :=
| Returned (a : A) (i : inspectorImpl)
| Panicked (p : Panic) (i : inspectorImpl)
| Exhausted.
Arguments Panicked {A} p i.
Arguments Exhausted {A}.

Definition M (A : Type) : Type := inspectorImpl -> Outcome A.

Definition ret {A} (a : A) : M A := fun i => Returned a i.

Definition bind {A B} (m : M A) (f : A -> M B) : M B :=
  fun i =>
    match m i with
    | Returned a i' => f a i'
    | Panicked p i' => Panicked p i'
    | Exhausted => Exhausted
    end.

Definition panic {A} (p : Panic) : M A := fun i => Panicked p i.

Definition exhausted {A} : M A := fun _ => Exhausted.

Notation "x <- c1 ;; c2" := (bind c1 (fun x => c2))
  (at level 61, c1 at next level, right associativity).

Fixpoint mapM {A B} (f : A -> M B) (l : list A) : M (list B) :=
  match l with
  | [] => ret []
  | x :: l' => y <- f x ;; ys <- mapM f l' ;; ret (y :: ys)
  end.

(** [r.(t)]: panics on a nil interface value and on a value of another
    type. *)
Definition typeAssert (t : GoType) (r : option Node) : M Node :=
  match r with
  | Some n => if conforms t n then ret n else panic TypeAssertion
  | None => panic TypeAssertion
  end.

(** ** The dispatch switch *)

Section Dispatch.

(** The recursive call: [Inspect(i, x)] in [walk.go], [ii.Inspect(x)] in the
    method. *)
Variable inspect : option Node -> M (option Node).

(** [inspect(x).(t)] *)
Definition inspectAs (t : GoType) (x : Node) : M Node :=
  r <- inspect (Some x) ;; typeAssert t r.

(** [if f != nil { f = inspect(f).(t) }] *)
Definition inspectIfPresent (t : GoType) (f : option Node) : M (option Node) :=
  match f with
  | Some x => x' <- inspectAs t x ;; ret (Some x')
  | None => ret None
  end.

(** [for l, c := range lst { lst[l] = inspect(c).(t) }] *)
Definition inspectRange (t : GoType) (lst : list Node) : M (list Node) :=
  mapM (inspectAs t) lst.

(** The same loop over the entries of the map [Package.Files]. *)
Definition inspectFiles (files : list (string * Node)) : M (list (string * Node)) :=
  mapM (fun kf => f' <- inspectAs TyFile (snd kf) ;; ret (fst kf, f')) files.

(** The four helpers: a list of the length of [lst] is made and slot [l]
    receives the inspected [lst[l]], for [l] in increasing order. *)
Definition inspectIdentList (lst : list Node) : M (list Node) :=
  mapM (fun x => inspectAs TyIdent x) lst.

Definition inspectExprList (lst : list Node) : M (list Node) :=
  mapM (fun x => inspectAs TyExpr x) lst.

Definition inspectStmtList (lst : list Node) : M (list Node) :=
  mapM (fun x => inspectAs TyStmt x) lst.

Definition inspectDeclList (lst : list Node) : M (list Node) :=
  mapM (fun x => inspectAs TyDecl x) lst.

(** The switch on the dynamic type of [node], children inspected in the
    order of the source and assigned back to their fields. *)

Definition inspectChildren (node : option Node) : M (option Node) :=
  match node with
  (* Comments and fields *)
  | Some (Comment d) => ret node (* nothing to do *)
  | Some (CommentGroup d lst) =>
      lst' <- inspectRange TyComment lst ;;
      ret (Some (CommentGroup d lst'))
  | Some (Field d doc names typ tag comment) =>
      doc' <- inspectIfPresent TyCommentGroup doc ;;
      names' <- inspectIdentList names ;;
      typ' <- inspectAs TyExpr typ ;;
      tag' <- inspectIfPresent TyBasicLit tag ;;
      comment' <- inspectIfPresent TyCommentGroup comment ;;
      ret (Some (Field d doc' names' typ' tag' comment'))
  | Some (FieldList d lst) =>
      lst' <- inspectRange TyField lst ;;
      ret (Some (FieldList d lst'))
  (* Expressions *)
  | Some (BadExpr d) => ret node (* nothing to do *)
  | Some (Ident d) => ret node (* nothing to do *)
  | Some (BasicLit d) => ret node (* nothing to do *)
  | Some (Ellipsis d elt) =>
      elt' <- inspectIfPresent TyExpr elt ;;
      ret (Some (Ellipsis d elt'))
  | Some (FuncLit d typ body) =>
      typ' <- inspectAs TyFuncType typ ;;
      body' <- inspectAs TyBlockStmt body ;;
      ret (Some (FuncLit d typ' body'))
  | Some (CompositeLit d typ elts) =>
      typ' <- inspectIfPresent TyExpr typ ;;
      elts' <- inspectExprList elts ;;
      ret (Some (CompositeLit d typ' elts'))
  | Some (ParenExpr d x) =>
      x' <- inspectAs TyExpr x ;;
      ret (Some (ParenExpr d x'))
  | Some (SelectorExpr d x sel) =>
      x' <- inspectAs TyExpr x ;;
      sel' <- inspectAs TyIdent sel ;;
      ret (Some (SelectorExpr d x' sel'))
  | Some (IndexExpr d x index) =>
      x' <- inspectAs TyExpr x ;;
      index' <- inspectAs TyExpr index ;;
      ret (Some (IndexExpr d x' index'))
  | Some (SliceExpr d x low high max) =>
      x' <- inspectAs TyExpr x ;;
      low' <- inspectIfPresent TyExpr low ;;
      high' <- inspectIfPresent TyExpr high ;;
      max' <- inspectIfPresent TyExpr max ;;
      ret (Some (SliceExpr d x' low' high' max'))
  | Some (TypeAssertExpr d x typ) =>
      x' <- inspectAs TyExpr x ;;
      typ' <- inspectIfPresent TyExpr typ ;;
      ret (Some (TypeAssertExpr d x' typ'))
  | Some (CallExpr d fn args) =>
      fn' <- inspectAs TyExpr fn ;;
      args' <- inspectExprList args ;;
      ret (Some (CallExpr d fn' args'))
  | Some (StarExpr d x) =>
      x' <- inspectAs TyExpr x ;;
      ret (Some (StarExpr d x'))
  | Some (UnaryExpr d x) =>
      x' <- inspectAs TyExpr x ;;
      ret (Some (UnaryExpr d x'))
  | Some (BinaryExpr d x y) =>
      x' <- inspectAs TyExpr x ;;
      y' <- inspectAs TyExpr y ;;
      ret (Some (BinaryExpr d x' y'))
  | Some (KeyValueExpr d key value) =>
      key' <- inspectAs TyExpr key ;;
      value' <- inspectAs TyExpr value ;;
      ret (Some (KeyValueExpr d key' value'))
  (* Types *)
  | Some (ArrayType d len elt) =>
      len' <- inspectIfPresent TyExpr len ;;
      elt' <- inspectAs TyExpr elt ;;
      ret (Some (ArrayType d len' elt'))
  | Some (StructType d fields) =>
      fields' <- inspectAs TyFieldList fields ;;
      ret (Some (StructType d fields'))
  | Some (FuncType d params results) =>
      params' <- inspectIfPresent TyFieldList params ;;
      results' <- inspectIfPresent TyFieldList results ;;
      ret (Some (FuncType d params' results'))
  | Some (InterfaceType d methods) =>
      methods' <- inspectAs TyFieldList methods ;;
      ret (Some (InterfaceType d methods'))
  | Some (MapType d key value) =>
      key' <- inspectAs TyExpr key ;;
      value' <- inspectAs TyExpr value ;;
      ret (Some (MapType d key' value'))
  | Some (ChanType d value) =>
      value' <- inspectAs TyExpr value ;;
      ret (Some (ChanType d value'))
  (* Statements *)
  | Some (BadStmt d) => ret node (* nothing to do *)
  | Some (DeclStmt d decl) =>
      decl' <- inspectAs TyDecl decl ;;
      ret (Some (DeclStmt d decl'))
  | Some (EmptyStmt d) => ret node (* nothing to do *)
  | Some (LabeledStmt d label stmt) =>
      label' <- inspectAs TyIdent label ;;
      stmt' <- inspectAs TyStmt stmt ;;
      ret (Some (LabeledStmt d label' stmt'))
  | Some (ExprStmt d x) =>
      x' <- inspectAs TyExpr x ;;
      ret (Some (ExprStmt d x'))
  | Some (SendStmt d chan value) =>
      chan' <- inspectAs TyExpr chan ;;
      value' <- inspectAs TyExpr value ;;
      ret (Some (SendStmt d chan' value'))
  | Some (IncDecStmt d x) =>
      x' <- inspectAs TyExpr x ;;
      ret (Some (IncDecStmt d x'))
  | Some (AssignStmt d lhs rhs) =>
      lhs' <- inspectExprList lhs ;;
      rhs' <- inspectExprList rhs ;;
      ret (Some (AssignStmt d lhs' rhs'))
  | Some (GoStmt d call) =>
      call' <- inspectAs TyCallExpr call ;;
      ret (Some (GoStmt d call'))
  | Some (DeferStmt d call) =>
      call' <- inspectAs TyCallExpr call ;;
      ret (Some (DeferStmt d call'))
  | Some (ReturnStmt d results) =>
      results' <- inspectExprList results ;;
      ret (Some (ReturnStmt d results'))
  | Some (BranchStmt d label) =>
      label' <- inspectIfPresent TyIdent label ;;
      ret (Some (BranchStmt d label'))
  | Some (BlockStmt d lst) =>
      lst' <- inspectStmtList lst ;;
      ret (Some (BlockStmt d lst'))
  | Some (IfStmt d init cond body els) =>
      init' <- inspectIfPresent TyStmt init ;;
      cond' <- inspectAs TyExpr cond ;;
      body' <- inspectAs TyBlockStmt body ;;
      els' <- inspectIfPresent TyStmt els ;;
      ret (Some (IfStmt d init' cond' body' els'))
  | Some (CaseClause d lst body) =>
      lst' <- inspectExprList lst ;;
      body' <- inspectStmtList body ;;
      ret (Some (CaseClause d lst' body'))
  | Some (SwitchStmt d init tag body) =>
      init' <- inspectIfPresent TyStmt init ;;
      tag' <- inspectIfPresent TyExpr tag ;;
      body' <- inspectAs TyBlockStmt body ;;
      ret (Some (SwitchStmt d init' tag' body'))
  | Some (TypeSwitchStmt d init assign body) =>
      init' <- inspectIfPresent TyStmt init ;;
      assign' <- inspectAs TyStmt assign ;;
      body' <- inspectAs TyBlockStmt body ;;
      ret (Some (TypeSwitchStmt d init' assign' body'))
  | Some (CommClause d comm body) =>
      comm' <- inspectIfPresent TyStmt comm ;;
      body' <- inspectStmtList body ;;
      ret (Some (CommClause d comm' body'))
  | Some (SelectStmt d body) =>
      body' <- inspectAs TyBlockStmt body ;;
      ret (Some (SelectStmt d body'))
  | Some (ForStmt d init cond post body) =>
      init' <- inspectIfPresent TyStmt init ;;
      cond' <- inspectIfPresent TyExpr cond ;;
      post' <- inspectIfPresent TyStmt post ;;
      body' <- inspectAs TyBlockStmt body ;;
      ret (Some (ForStmt d init' cond' post' body'))
  | Some (RangeStmt d key value x body) =>
      key' <- inspectIfPresent TyExpr key ;;
      value' <- inspectIfPresent TyExpr value ;;
      x' <- inspectAs TyExpr x ;;
      body' <- inspectAs TyBlockStmt body ;;
      ret (Some (RangeStmt d key' value' x' body'))
  (* Declarations *)
  | Some (ImportSpec d doc name path comment) =>
      doc' <- inspectIfPresent TyCommentGroup doc ;;
      name' <- inspectIfPresent TyIdent name ;;
      path' <- inspectAs TyBasicLit path ;;
      comment' <- inspectIfPresent TyCommentGroup comment ;;
      ret (Some (ImportSpec d doc' name' path' comment'))
  | Some (ValueSpec d doc names typ values comment) =>
      doc' <- inspectIfPresent TyCommentGroup doc ;;
      names' <- inspectIdentList names ;;
      typ' <- inspectIfPresent TyExpr typ ;;
      values' <- inspectExprList values ;;
      comment' <- inspectIfPresent TyCommentGroup comment ;;
      ret (Some (ValueSpec d doc' names' typ' values' comment'))
  | Some (TypeSpec d doc name typ comment) =>
      doc' <- inspectIfPresent TyCommentGroup doc ;;
      name' <- inspectAs TyIdent name ;;
      typ' <- inspectAs TyExpr typ ;;
      comment' <- inspectIfPresent TyCommentGroup comment ;;
      ret (Some (TypeSpec d doc' name' typ' comment'))
  | Some (BadDecl d) => ret node (* nothing to do *)
  | Some (GenDecl d doc specs) =>
      doc' <- inspectIfPresent TyCommentGroup doc ;;
      specs' <- inspectRange TySpec specs ;;
      ret (Some (GenDecl d doc' specs'))
  | Some (FuncDecl d doc recv name typ body) =>
      doc' <- inspectIfPresent TyCommentGroup doc ;;
      recv' <- inspectIfPresent TyFieldList recv ;;
      name' <- inspectAs TyIdent name ;;
      typ' <- inspectAs TyFuncType typ ;;
      body' <- inspectIfPresent TyBlockStmt body ;;
      ret (Some (FuncDecl d doc' recv' name' typ' body'))
  (* Files and packages *)
  | Some (File d doc name decls comments) =>
      doc' <- inspectIfPresent TyCommentGroup doc ;;
      name' <- inspectAs TyIdent name ;;
      decls' <- inspectDeclList decls ;;
      ret (Some (File d doc' name' decls' comments))
  | Some (Package d files) =>
      files' <- inspectFiles files ;;
      ret (Some (Package d files'))
  | Some (Foreign _ _) | None => panic UnexpectedNodeType
  end.


End Dispatch.

End Inspector.

Arguments Panicked {VState A} p i.
Arguments Exhausted {VState A}.
Arguments ret {VState A} a _.
Arguments panic {VState A} p _.
Arguments exhausted {VState A} _.
Arguments typeAssert {VState} t r _.

Notation "x <- c1 ;; c2" := (bind c1 (fun x => c2))
  (at level 61, c1 at next level, right associativity).

(** ** [walk.go] with the inspector whose [Visit] returns the continuation *)

Module Walk.
Section Walk.

Variable VState : Type.
Variable visitorImpl : Visitor VState.

(** [Visit]: the cursor is set, the visitor runs, the answer decides between
    [i] ([true]) and [nil] ([false]).  The cursor is read by nobody and stays
    as the callback left it. *)
Definition Visit (n : option Node) : M VState bool :=
  fun i =>
    let i := Replace n i in
    let (i, result) := call (visitorImpl (closure i) n) i in
    Returned result (record (mkCall n (node i) result) i).

Fixpoint Inspect (fuel : nat) (node : option Node) : M VState (option Node) :=
  match fuel with
  | O => exhausted
  | S fuel =>
      continue <- Visit node ;;
      if continue then
        node' <- inspectChildren (Inspect fuel) node ;;
        _ <- Visit None ;;
        ret node'
      else ret node
  end.

End Walk.
End Walk.

(** ** The inspector whose [Visit] returns the replacement *)

Module Impl.
Section Impl.

Variable VState : Type.
Variable visitorImpl : Visitor VState.

(** [Visit]: the cursor is set, the visitor runs, the cursor is read back as
    the replacement and cleared. *)
Definition Visit (n : option Node) : M VState (option Node * bool) :=
  fun i =>
    let i := Replace n i in
    let (i, result) := call (visitorImpl (closure i) n) i in
    let replacement := node i in
    let i := Replace None i in
    Returned (replacement, result) (record (mkCall n replacement result) i).

Fixpoint Inspect (fuel : nat) (node : option Node) : M VState (option Node) :=
  match fuel with
  | O => exhausted
  | S fuel =>
      r <- Visit node ;;
      let node := fst r in
      if snd r then
        node' <- inspectChildren (Inspect fuel) node ;;
        _ <- Visit None ;;
        ret node'
      else ret node
  end.

End Impl.
End Impl.

(** ** Notions used to state the properties of a traversal *)

(** The switch seen through the table of child slots: each slot is
    inspected in turn and keeps its static type. *)
Section RunSlots.

Variable VState : Type.
Variable inspect : option Node -> M VState (option Node).

Definition runSlot (s : Slot) : M VState Slot :=
  match s with
  | One t x => x' <- inspectAs inspect t x ;; ret (One t x')
  | Opt t f => f' <- inspectIfPresent inspect t f ;; ret (Opt t f')
  | Many t l => l' <- mapM (inspectAs inspect t) l ;; ret (Many t l')
  end.

Definition runSlots (ss : list Slot) : M VState (list Slot) := mapM runSlot ss.

End RunSlots.

(** Two slots of one field, before and after a traversal: same static type,
    same presence, same length. *)
Definition sameShape (s s' : Slot) : Prop :=
  slotType s = slotType s' /\
  length (slotNodes s) = length (slotNodes s') /\
  match s, s' with
  | One _ _, One _ _ | Opt _ _, Opt _ _ | Many _ _, Many _ _ => True
  | _, _ => False
  end.

(** The values of a slot have the static type of the slot. *)
Definition slotConforms (s : Slot) : Prop :=
  Forall (fun y => conforms (slotType s) y = true) (slotNodes s).

(** Every value of a slot has the static type of the slot and satisfies
    [P]. *)
Definition slotOk (P : Node -> Prop) (s : Slot) : Prop :=
  Forall (fun x => conforms (slotType s) x = true /\ P x) (slotNodes s).

Inductive Forall3 {A B C} (R : A -> B -> C -> Prop) :
  list A -> list B -> list C -> Prop :=
| Forall3_nil : Forall3 R [] [] []
| Forall3_cons a b c la lb lc :
    R a b c -> Forall3 R la lb lc -> Forall3 R (a :: la) (b :: lb) (c :: lc).

(** [Paired n t]: [t] is the sequence of visitor calls of a completed
    traversal of [n] in which the engine descends into the children of [n]
    itself.  A pre-order call answered [false] stands alone.  A pre-order
    call answered [true] is followed by the complete sequences of the
    children of [n], one per child and in order, and then by exactly one
    closing call (node argument nil). *)
#[local] Unset Elimination Schemes.
Inductive Paired : Node -> list Call -> Prop :=
| Paired_stop n c :
    callArg c = Some n -> callRecurse c = false ->
    Paired n [c]
| Paired_continue n c tss c' :
    callArg c = Some n -> callRecurse c = true ->
    Forall2 Paired (children n) tss ->
    callArg c' = None ->
    Paired n (c :: concat tss ++ [c']).
#[local] Set Elimination Schemes.

(** The run of the visitor that [Visit(n)] performs on the inspector [i]:
    the cursor is set to [n] and the callback is executed. *)
Definition visit {VState} (v : Visitor VState) (n : option Node)
    (i : inspectorImpl VState) : inspectorImpl VState * bool :=
  call (v (closure i) n) (Replace n i).

(** [c] records some run of the visitor [v]. *)
Definition MadeBy {VState} (v : Visitor VState) (c : Call) : Prop :=
  exists i, callLeft c = node (fst (visit v (callArg c) i)) /\
            callRecurse c = snd (visit v (callArg c) i).

(** The callback never calls [Replace]. *)
Fixpoint noReplace {VState} (c : Callback VState) : Prop :=
  match c with
  | DoCurrent k => forall cur, noReplace (k cur)
  | DoReplace _ _ => False
  | Return _ _ => True
  end.

(** The callback answers [b], whatever it does before. *)
Fixpoint answers {VState} (b : bool) (c : Callback VState) : Prop :=
  match c with
  | DoCurrent k => forall cur, answers b (k cur)
  | DoReplace _ k => answers b k
  | Return _ recurse => recurse = b
  end.

(** A panic of the default case raised by the recursive call [inspect] on
    one of the nodes [l], leaving the inspector [i']. *)
Definition panicsBelow {VState} (inspect : option Node -> M VState (option Node))
    (l : list Node) (i' : inspectorImpl VState) : Prop :=
  exists x j, In x l /\ inspect (Some x) j = Panicked UnexpectedNodeType i'.

(** [wellTyped k n]: [n] is a tree of height at most [k] made of the
    enumerated variants, each child of the static type of its field.  These
    are the trees the Go type checker admits as [ast.Node] values built from
    [go/ast]. *)
Fixpoint wellTyped (k : nat) (n : Node) : bool :=
  match k with
  | O => false
  | S k =>
      enumerated n &&
      forallb (fun s =>
        forallb (fun x => conforms (slotType s) x && wellTyped k x)
                (slotNodes s)) (slots n)
  end.

(** The nodes of a tree of height at most [k] in document order: a node,
    then the nodes of its children from left to right. *)
Fixpoint preorder (k : nat) (n : Node) : list Node :=
  match k with
  | O => []
  | S k => n :: flat_map (preorder k) (children n)
  end.

(** The nodes handed to the visitor by pre-order calls: the non-nil
    arguments of the calls made. *)
Definition visited (t : list Call) : list Node :=
  flat_map (fun c => match callArg c with Some n => [n] | None => [] end) t.

(** [Chain inspect t i l l' i']: starting from [i], the elements of [l] were
    inspected one after the other, from left to right, each inspection
    returned a node of type [t], [l'] lists these nodes in the same order,
    and [i'] is the inspector at the end. *)
Inductive Chain {VState} (inspect : option Node -> M VState (option Node))
    (t : GoType) :
    inspectorImpl VState -> list Node -> list Node -> inspectorImpl VState -> Prop :=
| Chain_nil i : Chain inspect t i [] [] i
| Chain_cons i x y j l l' i' :
    inspect (Some x) i = Returned (Some y) j ->
    conforms t y = true ->
    Chain inspect t j l l' i' ->
    Chain inspect t i (x :: l) (y :: l') i'.

(** Two outcomes that agree on what the caller and the visitor can observe:
    the value returned or the panic raised, and the state of the visitor
    closure. *)
Definition sameResult {VState A} (o1 o2 : Outcome VState A) : Prop :=
  match o1, o2 with
  | Returned a i, Returned b j => a = b /\ closure i = closure j
  | Panicked p i, Panicked q j => p = q /\ closure i = closure j
  | Exhausted, Exhausted => True
  | _, _ => False
  end.

(** Two visitors that run the same callback on every node and that, on a
    nil argument, leave their closures in the same state: they may differ
    in what they pass to [Replace] during a closing call, and in nothing
    else that outlives the call. *)
Definition differInClosingReplace {VState} (v1 v2 : Visitor VState) : Prop :=
  (forall s n, v1 s (Some n) = v2 s (Some n)) /\
  (forall i, closure (fst (visit v1 None i)) = closure (fst (visit v2 None i))).

(** The inspector after [Visit(n)]: the call is on record and, in the
    [Visit] that returns the replacement, the cursor is cleared. *)
Definition walkNext {VState} (v : Visitor VState) (n : option Node)
    (i : inspectorImpl VState) : inspectorImpl VState :=
  record (mkCall n (node (fst (visit v n i))) (snd (visit v n i)))
         (fst (visit v n i)).

Definition implNext {VState} (v : Visitor VState) (n : option Node)
    (i : inspectorImpl VState) : inspectorImpl VState :=
  record (mkCall n (node (fst (visit v n i))) (snd (visit v n i)))
         (Replace None (fst (visit v n i))).

(** [Rewritten x y t]: a completed traversal of [x] by the inspector whose
    [Visit] returns the replacement made the calls [t] and returned [y].
    The pre-order call on [x] left the cursor on [b], the replacement (or
    [x] itself).  Answered [false], the call stands alone and [y] is [b].
    Answered [true], it is followed by the complete call sequences of the
    children of [b], then by one closing call, and [y] is [b] with its
    child fields assigned what the traversals of these children returned. *)
#[local] Unset Elimination Schemes.
Inductive Rewritten : Node -> Node -> list Call -> Prop :=
| Rewritten_stop x y c :
    callArg c = Some x -> callLeft c = Some y -> callRecurse c = false ->
    Rewritten x y [c]
| Rewritten_continue x b y c tss c' :
    callArg c = Some x -> callLeft c = Some b -> callRecurse c = true ->
    y = rebuild b (slots y) ->
    Forall3 Rewritten (children b) (children y) tss ->
    callArg c' = None ->
    Rewritten x y (c :: concat tss ++ [c']).
#[local] Set Elimination Schemes.



(** ** Sample trees and the visitors of the tests *)

(** [package sample; func Widget(a *T) { return }] *)
Definition sampleFunc : Node :=
  FuncDecl "func" None None (Ident "Widget")
    (FuncType "" (Some (FieldList "" [Field "" None [Ident "a"]
                                        (StarExpr "*" (Ident "T")) None None]))
       None)
    (Some (BlockStmt "" [ReturnStmt "return" []])).

Definition sampleFile : Node :=
  File "sample.go" None (Ident "sample") [sampleFunc] [].

(** [pkg.InterfaceName] *)
Definition pkgInterfaceName : Node :=
  SelectorExpr "." (Ident "pkg") (Ident "InterfaceName").

(** The visitor of [TestChangePointerToInterface]. *)
Definition pointerToInterface : Visitor unit :=
  fun s n =>
    match n with
    | Some (StarExpr _ _) =>
        DoReplace (Some pkgInterfaceName) (Return s false)
    | _ => Return s true
    end.

(** The visitor of [TestPrependingFuncName]. *)
Definition prependingFuncName : Visitor unit :=
  fun s n =>
    match n with
    | Some (FuncDecl d doc recv (Ident name) typ body) =>
        DoReplace (Some (FuncDecl d doc recv (Ident ("Foo" ++ name)%string) typ body))
          (Return s false)
    | _ => Return s true
    end.

(** Visitors that look at nothing. *)
Definition continueAll : Visitor unit := fun s _ => Return s true.
Definition stopAll : Visitor unit := fun s _ => Return s false.

Definition idle : inspectorImpl unit := mkInspector None tt [].


(** A visitor that calls [Replace] during closing calls only. *)
Definition replaceWhenClosing : Visitor unit :=
  fun s n =>
    match n with
    | None => DoReplace (Some (Ident "stale")) (Return s true)
    | Some _ => Return s true
    end.

(** [f(x, *p)] *)
Definition sampleCall : Node :=
  CallExpr "" (Ident "f") [Ident "x"; StarExpr "*" (Ident "p")].


(** ** Further notions *)

(** [NewInspector]: the cursor is nil and nothing has been called yet; [s]
    is the initial state of the closure of the visitor handed over. *)
Definition NewInspector {VState} (s : VState) : inspectorImpl VState :=
  mkInspector None s [].

(** The calls whose node argument is nil, and the calls on a node that were
    answered [true]. *)
Definition nilCalls (t : list Call) : list Call :=
  filter (fun c => match callArg c with None => true | Some _ => false end) t.

Definition continuedCalls (t : list Call) : list Call :=
  filter (fun c => match callArg c with
                   | Some _ => callRecurse c
                   | None => false
                   end) t.

(** [g] applied to every value of a slot. *)
Definition mapSlot (g : Node -> Node) (s : Slot) : Slot :=
  match s with
  | One t x => One t (g x)
  | Opt t o => Opt t (option_map g o)
  | Many t l => Many t (map g l)
  end.

(** Rewriting from the root down, on a tree of height at most [k]: where
    [f] offers a replacement the node is replaced and the replacement is
    left alone; elsewhere the node is kept and its children are
    rewritten. *)
Fixpoint topDown (f : Node -> option Node) (k : nat) (n : Node) : Node :=
  match k with
  | O => n
  | S k =>
      match f n with
      | Some b => b
      | None => rebuild n (map (mapSlot (topDown f k)) (slots n))
      end
  end.

(** The visitor [v] acts as the rewriting rule [f]: where [f] offers a
    replacement it leaves the replacement under the cursor and answers
    [false]; elsewhere it leaves the node and answers [true]. *)
Definition rewritesBy {VState} (f : Node -> option Node)
    (v : Visitor VState) : Prop :=
  forall x i,
    node (fst (visit v (Some x) i))
    = Some (match f x with Some b => b | None => x end) /\
    snd (visit v (Some x) i) = match f x with Some _ => false | None => true end.

(** The rule of [TestChangePointerToInterface]. *)
Definition pointerRule (x : Node) : option Node :=
  match x with
  | StarExpr _ _ => Some pkgInterfaceName
  | _ => None
  end.

(** A well-typed tree, of whatever height. *)
Definition typed (n : Node) : Prop := exists k, wellTyped k n = true.

(** The type assertion [r.(t)] fails on [r]. *)
Definition rejected (t : GoType) (r : option Node) : Prop :=
  match r with
  | Some b => conforms t b = false
  | None => True
  end.

(** The traversal came back to its caller. *)
Definition returns {VState A} (o : Outcome VState A) : bool :=
  match o with
  | Returned _ _ => true
  | _ => false
  end.

(** The inspector a traversal leaves behind, when it returns or panics. *)
Definition inspectorAfter {VState A} (o : Outcome VState A)
    : option (inspectorImpl VState) :=
  match o with
  | Returned _ i | Panicked _ i => Some i
  | Exhausted => None
  end.

(** A visitor that replaces every identifier by an empty block. *)
Definition identToBlock : Visitor unit :=
  fun s n =>
    match n with
    | Some (Ident _) => DoReplace (Some (BlockStmt "" [])) (Return s false)
    | _ => Return s true
    end.

(** A visitor that wraps every node in parentheses and goes on. *)
Definition wrapInParens : Visitor unit :=
  fun s n =>
    match n with
    | Some x => DoReplace (Some (ParenExpr "" x)) (Return s true)
    | None => Return s true
    end.

(** A visitor that replaces every node by nil and goes on. *)
Definition replaceByNil : Visitor unit :=
  fun s _ => DoReplace None (Return s true).

(** * Properties *)

Unset Implicit Arguments.

(** ** The switch and the table of child slots *)

Section Generic.

Variable VState : Type.
Variable inspect : option Node -> M VState (option Node).

Lemma inspectFiles_snd files i :
  inspectFiles inspect files i =
  (l <- mapM (inspectAs inspect TyFile) (map snd files) ;;
   ret (combine (map fst files) l)) i.
Proof.
  revert i. induction files as [|[k f] files IH]; intro i; [reflexivity|].
  unfold inspectFiles in *. cbn [mapM map fst snd]. unfold bind at 1 2 5 6.
  destruct (inspectAs inspect TyFile f i) as [f' i'| |]; try reflexivity.
  cbn [ret]. unfold bind at 1 3. rewrite IH. unfold bind.
  destruct (mapM (inspectAs inspect TyFile) (map snd files) i'); reflexivity.
Qed.

Ltac run_one :=
  match goal with
  | |- context [inspectAs inspect ?t ?x ?j] =>
      destruct (inspectAs inspect t x j); cbn [ret]; try reflexivity
  | |- context [inspectIfPresent inspect ?t ?x ?j] =>
      destruct (inspectIfPresent inspect t x j); cbn [ret]; try reflexivity
  | |- context [mapM (inspectAs inspect ?t) ?x ?j] =>
      destruct (mapM (inspectAs inspect t) x j); cbn [ret]; try reflexivity
  end.

(** The switch inspects the child slots of the table in order and assigns
    the results back; a variant outside the enumeration takes the default
    case. *)
Lemma inspectChildren_slots n i :
  inspectChildren inspect (Some n) i =
  if enumerated n
  then (ss <- runSlots inspect (slots n) ;; ret (Some (rebuild n ss))) i
  else Panicked UnexpectedNodeType i.
Proof.
  destruct n;
    cbn [inspectChildren slots enumerated runSlots mapM runSlot rebuild];
    try reflexivity;
    unfold inspectIdentList, inspectExprList, inspectStmtList, inspectDeclList,
      inspectRange;
    unfold bind; try (rewrite inspectFiles_snd; unfold bind); repeat run_one.
Qed.

End Generic.

(** ** What a traversal of the child slots inherits from the recursive call

    [R x y t]: inspecting [x] returned [y] and made the calls [t]. *)

Lemma Forall3_app {A B C} (Q : A -> B -> C -> Prop) la lb lc la' lb' lc' :
  Forall3 Q la lb lc -> Forall3 Q la' lb' lc' ->
  Forall3 Q (la ++ la') (lb ++ lb') (lc ++ lc').
Proof. induction 1; cbn; [trivial|constructor; auto]. Qed.

Lemma Forall3_length {A B C} (Q : A -> B -> C -> Prop) la lb lc :
  Forall3 Q la lb lc -> length la = length lb /\ length la = length lc.
Proof. induction 1; cbn; [auto|lia]. Qed.

Section Traces.
Variable VState : Type.
Variable inspect : option Node -> M VState (option Node).
Variable R : Node -> Node -> list Call -> Prop.
Hypothesis inspect_R : forall x i y i',
  inspect (Some x) i = Returned (Some y) i' ->
  exists t, history i' = history i ++ t /\ R x y t.

Lemma inspectAs_R t x i y i' :
  inspectAs inspect t x i = Returned y i' ->
  conforms t y = true /\
  exists tr, history i' = history i ++ tr /\ R x y tr.
Proof.
  unfold inspectAs, bind.
  destruct (inspect (Some x) i) as [[y'|] j| |] eqn:E; try discriminate.
  destruct (inspect_R _ _ _ _ E) as (tr & Hh & HR). cbn.
  destruct (conforms t y') eqn:C; cbn; try discriminate.
  intros [= <- <-]. eauto.
Qed.

Lemma mapM_inspectAs_R t l i l' i' :
  mapM (inspectAs inspect t) l i = Returned l' i' ->
  Forall (fun y => conforms t y = true) l' /\
  exists tss, history i' = history i ++ concat tss /\ Forall3 R l l' tss.
Proof.
  revert i l' i'. induction l as [|x l IH]; intros i l' i'; cbn.
  - intros [= <- <-]. split; [constructor|]. exists []. cbn. rewrite app_nil_r.
    split; [reflexivity|constructor].
  - unfold bind. destruct (inspectAs inspect t x i) as [y j| |] eqn:E; try discriminate.
    destruct (mapM (inspectAs inspect t) l j) as [ys j'| |] eqn:E'; try discriminate.
    intros [= <- <-]. apply inspectAs_R in E as (C & tr & Hh & HR).
    apply IH in E' as (Cs & tss & Hh' & HRs).
    split; [constructor; assumption|]. exists (tr :: tss). cbn.
    rewrite Hh', Hh, app_assoc. split; [reflexivity|constructor; assumption].
Qed.

Lemma runSlot_R s i s' i' :
  runSlot inspect s i = Returned s' i' ->
  sameShape s s' /\ slotConforms s' /\
  exists tss, history i' = history i ++ concat tss /\
              Forall3 R (slotNodes s) (slotNodes s') tss.
Proof.
  destruct s as [t x|t [x|]|t l]; cbn; unfold bind.
  - destruct (inspectAs inspect t x i) as [y j| |] eqn:E; try discriminate.
    intros [= <- <-]. apply inspectAs_R in E as (C & tr & Hh & HR).
    repeat split; [repeat constructor; exact C|].
    exists [tr]. cbn. rewrite app_nil_r. split; [exact Hh|repeat constructor; exact HR].
  - destruct (inspectAs inspect t x i) as [y j| |] eqn:E; try discriminate.
    intros [= <- <-]. apply inspectAs_R in E as (C & tr & Hh & HR).
    repeat split; [repeat constructor; exact C|].
    exists [tr]. cbn. rewrite app_nil_r. split; [exact Hh|repeat constructor; exact HR].
  - intros [= <- <-]. repeat split; [constructor|].
    exists []. cbn. rewrite app_nil_r. split; [reflexivity|constructor].
  - destruct (mapM (inspectAs inspect t) l i) as [l' j| |] eqn:E; try discriminate.
    intros [= <- <-]. apply mapM_inspectAs_R in E as (C & tss & Hh & HR).
    repeat split; [cbn; apply (Forall3_length _ _ _ _ HR)|exact C|eauto].
Qed.

Lemma runSlots_R ss i ss' i' :
  runSlots inspect ss i = Returned ss' i' ->
  Forall2 sameShape ss ss' /\ Forall slotConforms ss' /\
  exists tss, history i' = history i ++ concat tss /\
              Forall3 R (flat_map slotNodes ss) (flat_map slotNodes ss') tss.
Proof.
  unfold runSlots. revert i ss' i'. induction ss as [|s ss IH]; intros i ss' i'; cbn.
  - intros [= <- <-]. repeat split; try constructor.
    exists []. cbn. rewrite app_nil_r. split; [reflexivity|constructor].
  - unfold bind. destruct (runSlot inspect s i) as [s' j| |] eqn:E; try discriminate.
    destruct (mapM (runSlot inspect) ss j) as [ss1 j'| |] eqn:E'; try discriminate.
    intros [= <- <-]. apply runSlot_R in E as (Sh & C & tss & Hh & HR).
    apply IH in E' as (Shs & Cs & tss' & Hh' & HRs).
    repeat split; try (constructor; assumption).
    exists (tss ++ tss'). rewrite concat_app, Hh', Hh, app_assoc.
    split; [reflexivity|]. cbn. apply Forall3_app; assumption.
Qed.
End Traces.

(** ** Slots and [rebuild] *)

Lemma combine_fst_snd {A B} (l : list (A * B)) :
  combine (map fst l) (map snd l) = l.
Proof. induction l as [|[a b] l IH]; cbn; [reflexivity|now rewrite IH]. Qed.

(** Assigning to every field the value it holds changes nothing. *)
Lemma rebuild_slots n : rebuild n (slots n) = n.
Proof. destruct n; cbn; try reflexivity. now rewrite combine_fst_snd. Qed.

Lemma app_eq_length {A} (a a' b b' : list A) :
  length a = length a' -> a ++ b = a' ++ b' -> a = a' /\ b = b'.
Proof.
  revert a'. induction a as [|x a IH]; intros [|x' a']; cbn; try discriminate; auto.
  intros [= L] [= -> E]. destruct (IH _ L E) as [-> ->]. auto.
Qed.

Lemma sameShape_flat_eq ss ss' :
  Forall2 sameShape ss ss' ->
  flat_map slotNodes ss = flat_map slotNodes ss' -> ss = ss'.
Proof.
  induction 1 as [|s s' ss ss' (T & L & K) _ IH]; cbn; [reflexivity|].
  intros E. apply app_eq_length in E as [E1 E2]; [|exact L].
  rewrite (IH E2). f_equal.
  destruct s as [t x|t [x|]|t l], s' as [t' x'|t' [x'|]|t' l'];
    cbn in *; try contradiction; try discriminate; subst; congruence.
Qed.

Lemma Forall3_eq_l {A C} (Q : A -> list C -> Prop) l l' tss :
  Forall3 (fun x y t => y = x /\ Q x t) l l' tss -> l' = l /\ Forall2 Q l tss.
Proof.
  induction 1 as [|a b c la lb lc [-> H] _ [-> IH]]; split; auto.
Qed.

Lemma Forall2_and_concat {A C} (Q : A -> list C -> Prop) (F : C -> Prop) l tss :
  Forall2 (fun x t => Q x t /\ Forall F t) l tss ->
  Forall2 Q l tss /\ Forall F (concat tss).
Proof.
  induction 1 as [|a t l tss [H1 H2] _ [IH1 IH2]]; cbn.
  - split; constructor.
  - split; [constructor; assumption|apply Forall_app; auto].
Qed.

(** ** [walk.go]: the calls of a completed traversal *)

Section WalkTrace.

Variable VState : Type.
Variable visitorImpl : Visitor VState.

Lemma call_history (c : Callback VState) i :
  history (fst (call c i)) = history i.
Proof.
  revert i. induction c as [k IH|n k IH|s r]; intro i; cbn; auto.
  now rewrite IH.
Qed.

(** [Visit] always returns, having made exactly one call, on its
    argument, and it answers what the visitor answered. *)
Lemma Walk_Visit_returns n i :
  exists c i',
    Walk.Visit visitorImpl n i = Returned (callRecurse c) i' /\
    callArg c = n /\ MadeBy visitorImpl c /\
    callRecurse c = snd (visit visitorImpl n i) /\
    history i' = history i ++ [c].
Proof.
  unfold Walk.Visit.
  pose proof (call_history (visitorImpl (closure (Replace n i)) n) (Replace n i)) as H.
  destruct (call _ _) as [j res] eqn:E.
  exists (mkCall n (node j) res), (record (mkCall n (node j) res) j).
  split; [reflexivity|]. split; [reflexivity|].
  split; [exists i; unfold visit; cbn in *; rewrite E; auto|].
  split; [unfold visit; cbn in *; now rewrite E|]. cbn in *. now rewrite H.
Qed.

(** A traversal that returns hands back its argument; its calls are
    paired and each of them records a run of the visitor. *)
Lemma Walk_Inspect_Paired fuel :
  forall x i r i',
    Walk.Inspect visitorImpl fuel (Some x) i = Returned r i' ->
    exists y t, r = Some y /\ history i' = history i ++ t /\
                (y = x /\ Paired x t /\ Forall (MadeBy visitorImpl) t).
Proof.
  induction fuel as [|fuel IH]; intros x i r i'; [discriminate|].
  cbn [Walk.Inspect]. unfold bind at 1.
  destruct (Walk_Visit_returns (Some x) i) as (c & i1 & -> & Ha & Hm & _ & Hh1).
  destruct (callRecurse c) eqn:Hr; cbn [ret].
  - unfold bind. rewrite inspectChildren_slots.
    destruct (enumerated x); [|discriminate]. unfold bind.
    destruct (runSlots _ _ _) as [ss i2| |] eqn:E; try discriminate.
    cbn [ret].
    destruct (Walk_Visit_returns None i2) as (c' & i3 & -> & Ha' & Hm' & _ & Hh3).
    intros [= <- <-].
    apply runSlots_R
      with (R := fun x y t => y = x /\ Paired x t /\ Forall (MadeBy visitorImpl) t)
      in E;
      [|intros x0 j0 y0 j0' E0;
        destruct (IH _ _ _ _ E0) as (y1 & t1 & [= <-] & Hh0 & HR0); eauto].
    destruct E as (Sh & _ & tss & Hh & H3).
    apply Forall3_eq_l in H3 as [Eq HP].
    apply sameShape_flat_eq in Sh; [|now rewrite Eq]. subst ss.
    apply Forall2_and_concat in HP as [HP HM].
    rewrite rebuild_slots. eexists _, _. split; [reflexivity|].
    split; [|split; [reflexivity|split]].
    + rewrite Hh3, Hh, Hh1. cbn. rewrite <- !app_assoc. reflexivity.
    + eapply Paired_continue with (c' := c'); eassumption.
    + constructor; [exact Hm|]. apply Forall_app. split; [exact HM|].
      constructor; [exact Hm'|constructor].
  - intros [= <- <-]. eexists _, _. split; [reflexivity|].
    split; [exact Hh1|]. split; [reflexivity|]. split.
    + apply Paired_stop; assumption.
    + constructor; [exact Hm|constructor].
Qed.

End WalkTrace.

(** ** Traversals that return their argument *)

Section Identity.

Variable VState : Type.
Variable inspect : option Node -> M VState (option Node).
Variable P : Node -> Prop.
Hypothesis inspect_id : forall x i,
  P x -> exists i', inspect (Some x) i = Returned (Some x) i'.

Lemma inspectAs_id t x i :
  conforms t x = true -> P x ->
  exists i', inspectAs inspect t x i = Returned x i'.
Proof.
  intros C Px. unfold inspectAs, bind.
  destruct (inspect_id x i Px) as [i' ->]. cbn. rewrite C. eexists; reflexivity.
Qed.

Lemma mapM_inspectAs_id t l i :
  Forall (fun x => conforms t x = true /\ P x) l ->
  exists i', mapM (inspectAs inspect t) l i = Returned l i'.
Proof.
  intros H. revert i. induction H as [|x l [C Px] _ IH]; intro i; cbn.
  - eexists; reflexivity.
  - unfold bind. destruct (inspectAs_id _ _ i C Px) as [j ->].
    destruct (IH j) as [j' ->]. eexists; reflexivity.
Qed.

Lemma runSlot_id s i :
  slotOk P s -> exists i', runSlot inspect s i = Returned s i'.
Proof.
  unfold slotOk. destruct s as [t x|t [x|]|t l]; cbn; intros H; unfold bind.
  - inversion H as [|? ? [C Px] _]; subst.
    destruct (inspectAs_id _ _ i C Px) as [j ->]. eexists; reflexivity.
  - inversion H as [|? ? [C Px] _]; subst.
    destruct (inspectAs_id _ _ i C Px) as [j ->]. eexists; reflexivity.
  - eexists; reflexivity.
  - destruct (mapM_inspectAs_id _ _ i H) as [j ->]. eexists; reflexivity.
Qed.

Lemma runSlots_id ss i :
  Forall (slotOk P) ss -> exists i', runSlots inspect ss i = Returned ss i'.
Proof.
  unfold runSlots. intros H. revert i. induction H as [|s ss Hs _ IH]; intro i; cbn.
  - eexists; reflexivity.
  - unfold bind. destruct (runSlot_id _ i Hs) as [j ->].
    destruct (IH j) as [j' ->]. eexists; reflexivity.
Qed.

End Identity.

Lemma wellTyped_slots k n :
  wellTyped (S k) n = true ->
  enumerated n = true /\
  Forall (slotOk (fun x => wellTyped k x = true)) (slots n).
Proof.
  cbn [wellTyped]. intros H. apply andb_prop in H as [E H]. split; [exact E|].
  rewrite forallb_forall in H. apply Forall_forall. intros s Hs.
  specialize (H s Hs). rewrite forallb_forall in H. apply Forall_forall.
  intros x Hx. apply andb_prop. exact (H x Hx).
Qed.

Section WalkTotal.

Variable VState : Type.
Variable visitorImpl : Visitor VState.

(** On a well-typed tree of height at most [k] a stack of depth [k] is
    enough: the traversal returns, and returns the tree it was given. *)
Lemma Walk_Inspect_returns fuel :
  forall k x i,
    wellTyped k x = true -> k <= fuel ->
    exists i', Walk.Inspect visitorImpl fuel (Some x) i = Returned (Some x) i'.
Proof.
  induction fuel as [|fuel IH]; intros [|k] x i W L; try discriminate; [lia|].
  apply wellTyped_slots in W as [En Sl].
  cbn [Walk.Inspect]. unfold bind at 1.
  destruct (Walk_Visit_returns _ visitorImpl (Some x) i) as (c & i1 & -> & _ & _).
  destruct (callRecurse c); [|eexists; reflexivity].
  unfold bind. rewrite inspectChildren_slots, En. unfold bind.
  destruct (runSlots_id VState (Walk.Inspect visitorImpl fuel)
              (fun x => wellTyped k x = true)) with (ss := slots x) (i := i1)
    as [i2 ->]; [intros; apply IH with (k := k); [assumption|lia]|exact Sl|].
  cbn [ret]. rewrite rebuild_slots.
  destruct (Walk_Visit_returns _ visitorImpl None i2) as (c' & i3 & -> & _ & _).
  eexists; reflexivity.
Qed.

End WalkTotal.

(** ** Where a panic of the default case can come from *)

Section Panics.

Variable VState : Type.
Variable inspect : option Node -> M VState (option Node).

Lemma panicsBelow_incl l l' i' :
  incl l l' -> panicsBelow inspect l i' -> panicsBelow inspect l' i'.
Proof. intros H (x & j & Hx & E). exists x, j. auto. Qed.

Lemma inspectAs_panic t x i i' :
  inspectAs inspect t x i = Panicked UnexpectedNodeType i' ->
  panicsBelow inspect [x] i'.
Proof.
  unfold inspectAs, bind.
  destruct (inspect (Some x) i) as [[y|] j|p j|] eqn:E; cbn; try discriminate.
  - destruct (conforms t y); cbn; discriminate.
  - intros [= -> ->]. exists x, i. cbn. auto.
Qed.

Lemma mapM_inspectAs_panic t l i i' :
  mapM (inspectAs inspect t) l i = Panicked UnexpectedNodeType i' ->
  panicsBelow inspect l i'.
Proof.
  revert i. induction l as [|x l IH]; intro i; cbn; [discriminate|].
  unfold bind. destruct (inspectAs inspect t x i) as [y j|p j|] eqn:E; try discriminate.
  - destruct (mapM (inspectAs inspect t) l j) as [ys j'|p j'|] eqn:E'; try discriminate.
    intros [= -> ->]. apply IH in E'.
    eapply panicsBelow_incl; [|exact E']. apply incl_tl, incl_refl.
  - intros [= -> ->]. apply inspectAs_panic in E.
    eapply panicsBelow_incl; [|exact E]. intros z [<-|[]]. now left.
Qed.

Lemma runSlot_panic s i i' :
  runSlot inspect s i = Panicked UnexpectedNodeType i' ->
  panicsBelow inspect (slotNodes s) i'.
Proof.
  destruct s as [t x|t [x|]|t l]; cbn; unfold bind.
  - destruct (inspectAs inspect t x i) eqn:E; try discriminate.
    intros [= -> ->]. now apply inspectAs_panic in E.
  - destruct (inspectAs inspect t x i) eqn:E; try discriminate.
    intros [= -> ->]. now apply inspectAs_panic in E.
  - discriminate.
  - destruct (mapM (inspectAs inspect t) l i) eqn:E; try discriminate.
    intros [= -> ->]. now apply mapM_inspectAs_panic in E.
Qed.

Lemma runSlots_panic ss i i' :
  runSlots inspect ss i = Panicked UnexpectedNodeType i' ->
  panicsBelow inspect (flat_map slotNodes ss) i'.
Proof.
  unfold runSlots. revert i. induction ss as [|s ss IH]; intro i; cbn; [discriminate|].
  unfold bind. destruct (runSlot inspect s i) as [s' j|p j|] eqn:E; try discriminate.
  - destruct (mapM (runSlot inspect) ss j) as [ss' j'|p j'|] eqn:E'; try discriminate.
    intros [= -> ->]. apply IH in E'.
    eapply panicsBelow_incl; [|exact E']. apply incl_appr, incl_refl.
  - intros [= -> ->]. apply runSlot_panic in E.
    eapply panicsBelow_incl; [|exact E]. apply incl_appl, incl_refl.
Qed.

(** At an enumerated variant the switch does not take its default case: a
    panic of that kind is the panic of a recursive call on a child. *)
Lemma inspectChildren_panic n i i' :
  enumerated n = true ->
  inspectChildren inspect (Some n) i = Panicked UnexpectedNodeType i' ->
  panicsBelow inspect (children n) i'.
Proof.
  intros En. rewrite inspectChildren_slots, En. unfold bind.
  destruct (runSlots inspect (slots n) i) as [ss j|p j|] eqn:E; try discriminate.
  intros [= -> ->]. now apply runSlots_panic in E.
Qed.

End Panics.

(** ** [walk.go]: the default case of the switch *)

(** C8. A node of a variant outside the enumeration, once the visitor has
    answered [true] for it, makes the traversal panic with the panic of the
    default case; at an enumerated variant the switch does not take that
    case, so that such a panic there is the panic of a recursive call on a
    child. *)
Theorem unexpected_node_type_panics VState (v : Visitor VState) :
  (forall fuel name impl i,
     snd (visit v (Some (Foreign name impl)) i) = true ->
     exists i',
       Walk.Inspect v (S fuel) (Some (Foreign name impl)) i
       = Panicked UnexpectedNodeType i') /\
  (forall (inspect : option Node -> M VState (option Node)) n i i',
     enumerated n = true ->
     inspectChildren inspect (Some n) i = Panicked UnexpectedNodeType i' ->
     panicsBelow inspect (children n) i').
Proof.
  split.
  - intros fuel name impl i Hc. cbn [Walk.Inspect]. unfold bind.
    destruct (Walk_Visit_returns _ v (Some (Foreign name impl)) i)
      as (c & i1 & -> & _ & _ & Hr & _).
    rewrite Hc in Hr. rewrite Hr. cbn. eexists; reflexivity.
  - intros inspect n i i'. apply inspectChildren_panic.
Qed.

Lemma unexpected_node_type_panics_witness :
  (exists i',
     Walk.Inspect continueAll 1 (Some (Foreign "IndexListExpr" [IExpr])) idle
     = Panicked UnexpectedNodeType i') /\
  panicsBelow (Walk.Inspect continueAll 1)
    (children (ParenExpr "" (Foreign "IndexListExpr" [IExpr])))
    (record (mkCall (Some (Foreign "IndexListExpr" [IExpr]))
                    (Some (Foreign "IndexListExpr" [IExpr])) true)
            (mkInspector (Some (Foreign "IndexListExpr" [IExpr])) tt [])).
Proof.
  destruct (unexpected_node_type_panics unit continueAll) as [H1 H2]. split.
  - apply (H1 0 "IndexListExpr" [IExpr] idle). reflexivity.
  - apply (H2 _ _ idle); reflexivity.
Defined.

(** ** [walk.go]: a nil node *)

(** C10. [Inspect] of a nil node hands nil to the visitor, the argument of
    a closing call; when the visitor answers [true] the nil node reaches
    the default case and the traversal panics, and when it answers [false]
    nil is returned. *)
Theorem inspect_nil_node VState (v : Visitor VState) fuel i :
  exists c i1,
    Walk.Visit v None i = Returned (callRecurse c) i1 /\
    callArg c = None /\
    callRecurse c = snd (visit v None i) /\
    history i1 = history i ++ [c] /\
    Walk.Inspect v (S fuel) None i =
      (if callRecurse c then Panicked UnexpectedNodeType i1
       else Returned None i1).
Proof.
  destruct (Walk_Visit_returns _ v None i) as (c & i1 & E & Ha & _ & Hr & Hh).
  exists c, i1. repeat split; try assumption.
  cbn [Walk.Inspect]. unfold bind. rewrite E.
  destruct (callRecurse c); reflexivity.
Qed.

(** ** Callbacks *)

Lemma answers_call VState b (c : Callback VState) i :
  answers b c -> snd (call c i) = b.
Proof.
  revert i. induction c as [k IH|n k IH|s r]; intros i H; cbn in *; auto.
Qed.

Lemma noReplace_call VState (c : Callback VState) i :
  noReplace c -> node (fst (call c i)) = node i.
Proof.
  revert i. induction c as [k IH|n k IH|s r]; intros i H; cbn in *; auto.
  contradiction.
Qed.

(** ** [walk.go]: coverage in document order *)

Lemma slotOk_children (P : Node -> Prop) n :
  Forall (slotOk P) (slots n) -> Forall P (children n).
Proof.
  unfold children. induction 1 as [|s ss Hs _ IH]; cbn; [constructor|].
  apply Forall_app. split; [|exact IH].
  unfold slotOk in Hs. eapply Forall_impl; [|exact Hs]. now intros x [_ Hx].
Qed.

Lemma visited_app t t' : visited (t ++ t') = visited t ++ visited t'.
Proof. unfold visited. apply flat_map_app. Qed.

Section Coverage.

Variable VState : Type.
Variable v : Visitor VState.
Hypothesis v_continues : forall s x, answers true (v s (Some x)).

Lemma Paired_children_preorder k l tss :
  (forall n t, wellTyped k n = true -> Paired n t ->
               Forall (MadeBy v) t -> visited t = preorder k n) ->
  Forall2 Paired l tss ->
  Forall (fun x => wellTyped k x = true) l ->
  Forall (MadeBy v) (concat tss) ->
  visited (concat tss) = flat_map (preorder k) l.
Proof.
  intros IH. induction 1 as [|x t l tss Hx _ IHl]; cbn; [reflexivity|].
  intros W M. inversion W; subst. apply Forall_app in M as [M1 M2].
  rewrite visited_app. f_equal; auto.
Qed.

Lemma Paired_preorder k :
  forall n t, wellTyped k n = true -> Paired n t ->
              Forall (MadeBy v) t -> visited t = preorder k n.
Proof.
  induction k as [|k IH]; intros n t W HP M; [discriminate|].
  apply wellTyped_slots in W as [_ W]. apply slotOk_children in W.
  inversion HP as [n0 c Ha Hr|n0 c tss c' Ha Hr Hk Ha']; subst.
  - inversion M as [|? ? (j & _ & Hj) _]; subst. exfalso.
    rewrite Ha in Hj. unfold visit in Hj.
    rewrite (answers_call _ true) in Hj by apply v_continues. congruence.
  - inversion M as [|? ? _ M']; subst. apply Forall_app in M' as [M' _].
    cbn [preorder]. change (c :: concat tss ++ [c']) with ([c] ++ concat tss ++ [c']).
    rewrite !visited_app. unfold visited at 1 3. cbn. rewrite Ha, Ha'. cbn.
    rewrite app_nil_r. f_equal. now apply Paired_children_preorder.
Qed.

End Coverage.

(** C2, amended.  For a visitor that answers [true] to every pre-order
    call, the traversal of a well-typed tree returns, and the nodes handed
    to the visitor by pre-order calls are the nodes of the tree, each once,
    in document order.  The children of a file are its doc comment when
    present, its name and its declarations: the comments of the file are
    not among them. *)
Theorem full_coverage VState (v : Visitor VState) k fuel n i :
  ((forall s x, answers true (v s (Some x))) ->
   wellTyped k n = true -> k <= fuel ->
   exists i' t,
     Walk.Inspect v fuel (Some n) i = Returned (Some n) i' /\
     history i' = history i ++ t /\
     visited t = preorder k n) /\
  (forall d doc name decls comments,
     children (File d doc name decls comments)
     = slotNodes (Opt TyCommentGroup doc) ++ [name] ++ decls).
Proof.
  split.
  - intros Hv W L.
    destruct (Walk_Inspect_returns _ v fuel k n i W L) as [i' E].
    destruct (Walk_Inspect_Paired _ v fuel n i _ _ E) as (y & t & _ & Hh & _ & HP & HM).
    exists i', t. repeat split; try assumption.
    eapply Paired_preorder; eassumption.
  - intros d doc name decls comments. unfold children. cbn.
    now rewrite app_nil_r.
Qed.

Lemma full_coverage_witness :
  exists i' t,
    Walk.Inspect continueAll 7 (Some sampleFile) idle
    = Returned (Some sampleFile) i' /\
    history i' = history idle ++ t /\
    visited t = preorder 7 sampleFile.
Proof.
  apply (full_coverage unit continueAll 7 7 sampleFile idle);
    [intros s x; reflexivity|reflexivity|lia].
Defined.

(** C2 as stated fails: the visitor of [TestChangePointerToInterface]
    answers [false] at the pointer type, and the identifier below it, a
    node of the tree, is never handed to the visitor. *)
Lemma full_coverage_fails_when_visitor_stops :
  exists i',
    Walk.Inspect pointerToInterface 7 (Some sampleFile) idle
    = Returned (Some sampleFile) i' /\
    In (Ident "T") (preorder 7 sampleFile) /\
    ~ In (Ident "T") (visited (history i')).
Proof.
  eexists. split; [vm_compute; reflexivity|]. split.
  - vm_compute. tauto.
  - vm_compute. intros H.
    repeat (destruct H as [H|H]; [discriminate H|]). exact H.
Qed.

(** ** The child-list helpers *)

Section Helpers.

Variable VState : Type.
Variable inspect : option Node -> M VState (option Node).

Lemma inspectAs_Returned t x i y j :
  inspectAs inspect t x i = Returned y j <->
  inspect (Some x) i = Returned (Some y) j /\ conforms t y = true.
Proof.
  unfold inspectAs, bind. split.
  - destruct (inspect (Some x) i) as [[z|] k|p k|]; cbn; try discriminate.
    destruct (conforms t z) eqn:C; cbn; try discriminate.
    intros [= <- <-]. auto.
  - intros [-> C]. cbn. now rewrite C.
Qed.

Lemma mapM_inspectAs_Chain t l i l' i' :
  mapM (inspectAs inspect t) l i = Returned l' i' <->
  Chain inspect t i l l' i'.
Proof.
  split.
  - revert i l'. induction l as [|x l IH]; intros i l'; cbn.
    + intros [= <- <-]. constructor.
    + unfold bind. destruct (inspectAs inspect t x i) as [y j| |] eqn:E; try discriminate.
      destruct (mapM (inspectAs inspect t) l j) as [ys j'| |] eqn:E'; try discriminate.
      intros [= <- <-]. apply inspectAs_Returned in E as [E C].
      econstructor; eauto.
  - induction 1 as [i|i x y j l l' i' E C _ IH]; cbn; [reflexivity|].
    unfold bind. rewrite (proj2 (inspectAs_Returned t x i y j) (conj E C)).
    now rewrite IH.
Qed.

Lemma Chain_slots t i l l' i' :
  Chain inspect t i l l' i' ->
  length l' = length l /\
  forall k x, nth_error l k = Some x ->
    exists y j j',
      nth_error l' k = Some y /\
      inspect (Some x) j = Returned (Some y) j' /\ conforms t y = true.
Proof.
  induction 1 as [i|i x y j l l' i' E C _ [IHl IHk]]; cbn.
  - split; [reflexivity|]. intros [|k] x; discriminate.
  - split; [now rewrite IHl|]. intros [|k] x0; cbn.
    + intros [= <-]. exists y, i, j. auto.
    + apply IHk.
Qed.

End Helpers.

(** C9. Each of the four helpers returns exactly when the elements of its
    list, inspected one after the other from left to right, each return a
    node of the element type; the list returned has the length of the list
    given and holds at every index the node returned by the inspection of
    the element at that index. *)
Theorem child_list_helpers VState (inspect : option Node -> M VState (option Node)) :
  (forall l i l' i',
     inspectIdentList inspect l i = Returned l' i' <->
     Chain inspect TyIdent i l l' i') /\
  (forall l i l' i',
     inspectExprList inspect l i = Returned l' i' <->
     Chain inspect TyExpr i l l' i') /\
  (forall l i l' i',
     inspectStmtList inspect l i = Returned l' i' <->
     Chain inspect TyStmt i l l' i') /\
  (forall l i l' i',
     inspectDeclList inspect l i = Returned l' i' <->
     Chain inspect TyDecl i l l' i') /\
  (forall t i l l' i',
     Chain inspect t i l l' i' ->
     length l' = length l /\
     forall k x, nth_error l k = Some x ->
       exists y j j',
         nth_error l' k = Some y /\
         inspect (Some x) j = Returned (Some y) j' /\ conforms t y = true).
Proof.
  split; [|split; [|split; [|split]]];
    try (intros l i l' i'; apply mapM_inspectAs_Chain).
  intros t i l l' i'. apply Chain_slots.
Qed.

Lemma child_list_helpers_witness :
  exists l' i',
    inspectExprList (Impl.Inspect pointerToInterface 2)
      [StarExpr "*" (Ident "T"); Ident "x"] idle = Returned l' i' /\
    length l' = 2 /\
    nth_error l' 0
    = Some (SelectorExpr "." (Ident "pkg") (Ident "InterfaceName")) /\
    nth_error l' 1 = Some (Ident "x").
Proof.
  destruct (child_list_helpers unit (Impl.Inspect pointerToInterface 2))
    as (_ & HE & _ & _ & HC).
  eexists
    [SelectorExpr "." (Ident "pkg") (Ident "InterfaceName"); Ident "x"], _.
  assert (E : inspectExprList (Impl.Inspect pointerToInterface 2)
                [StarExpr "*" (Ident "T"); Ident "x"] idle
              = Returned
                  [SelectorExpr "." (Ident "pkg") (Ident "InterfaceName");
                   Ident "x"]
                  (mkInspector None tt
                     [mkCall (Some (StarExpr "*" (Ident "T")))
                        (Some (SelectorExpr "." (Ident "pkg") (Ident "InterfaceName")))
                        false;
                      mkCall (Some (Ident "x")) (Some (Ident "x")) true;
                      mkCall None None true]))
    by reflexivity.
  split; [exact E|]. apply HE in E. apply HC in E as [L _].
  split; [exact L|]. split; reflexivity.
Defined.

(** ** The inspector whose [Visit] returns the replacement *)

Section ImplVisit.

Variable VState : Type.
Variable visitorImpl : Visitor VState.



End ImplVisit.

(** ** The identity law *)



(** ** Two traversals side by side *)

Lemma call_cursor VState (c : Callback VState) i1 i2 :
  node i1 = node i2 ->
  node (fst (call c i1)) = node (fst (call c i2)) /\
  closure (fst (call c i1)) = closure (fst (call c i2)) /\
  snd (call c i1) = snd (call c i2).
Proof.
  revert i1 i2. induction c as [k IH|n k IH|s r]; intros i1 i2 E; cbn.
  - unfold Current. rewrite E. now apply IH.
  - now apply IH.
  - auto.
Qed.

Lemma visit_closure VState (v : Visitor VState) n i1 i2 :
  closure i1 = closure i2 ->
  node (fst (visit v n i1)) = node (fst (visit v n i2)) /\
  closure (fst (visit v n i1)) = closure (fst (visit v n i2)) /\
  snd (visit v n i1) = snd (visit v n i2).
Proof. intros E. unfold visit. rewrite E. now apply call_cursor. Qed.

Section SideBySide.

Variable VState : Type.
Variables inspect1 inspect2 : option Node -> M VState (option Node).
Hypothesis inspect_same : forall x i1 i2,
  closure i1 = closure i2 ->
  sameResult (inspect1 (Some x) i1) (inspect2 (Some x) i2).

Lemma inspectAs_same t x i1 i2 :
  closure i1 = closure i2 ->
  sameResult (inspectAs inspect1 t x i1) (inspectAs inspect2 t x i2).
Proof.
  intros E. unfold inspectAs, bind. pose proof (inspect_same x i1 i2 E) as H.
  destruct (inspect1 (Some x) i1) as [r1 j1|p1 j1|],
           (inspect2 (Some x) i2) as [r2 j2|p2 j2|]; cbn in H; try contradiction;
    try exact H.
  destruct H as [<- H]. destruct r1 as [y|]; cbn; [|auto].
  destruct (conforms t y); cbn; auto.
Qed.

Lemma mapM_inspectAs_same t l i1 i2 :
  closure i1 = closure i2 ->
  sameResult (mapM (inspectAs inspect1 t) l i1) (mapM (inspectAs inspect2 t) l i2).
Proof.
  revert i1 i2. induction l as [|x l IH]; intros i1 i2 E; cbn; [auto|].
  unfold bind. pose proof (inspectAs_same t x i1 i2 E) as H.
  destruct (inspectAs inspect1 t x i1) as [y1 j1|p1 j1|],
           (inspectAs inspect2 t x i2) as [y2 j2|p2 j2|]; cbn in H; try contradiction;
    try exact H.
  destruct H as [<- H]. specialize (IH j1 j2 H).
  destruct (mapM (inspectAs inspect1 t) l j1) as [l1 k1|q1 k1|],
           (mapM (inspectAs inspect2 t) l j2) as [l2 k2|q2 k2|]; cbn in *;
    try contradiction; try exact IH.
  destruct IH as [<- IH]. auto.
Qed.

Lemma runSlot_same s i1 i2 :
  closure i1 = closure i2 ->
  sameResult (runSlot inspect1 s i1) (runSlot inspect2 s i2).
Proof.
  intros E. destruct s as [t x|t [x|]|t l]; cbn; unfold bind; [| |cbn; auto|].
  1,2: pose proof (inspectAs_same t x i1 i2 E) as H;
    destruct (inspectAs inspect1 t x i1), (inspectAs inspect2 t x i2);
    cbn in *; try contradiction; try exact H; destruct H as [<- H]; auto.
  pose proof (mapM_inspectAs_same t l i1 i2 E) as H.
  destruct (mapM (inspectAs inspect1 t) l i1), (mapM (inspectAs inspect2 t) l i2);
    cbn in *; try contradiction; try exact H. destruct H as [<- H]; auto.
Qed.

Lemma runSlots_same ss i1 i2 :
  closure i1 = closure i2 ->
  sameResult (runSlots inspect1 ss i1) (runSlots inspect2 ss i2).
Proof.
  unfold runSlots. revert i1 i2. induction ss as [|s ss IH]; intros i1 i2 E; cbn; [auto|].
  unfold bind. pose proof (runSlot_same s i1 i2 E) as H.
  destruct (runSlot inspect1 s i1) as [s1 j1|p1 j1|],
           (runSlot inspect2 s i2) as [s2 j2|p2 j2|]; cbn in H; try contradiction;
    try exact H.
  destruct H as [<- H]. specialize (IH j1 j2 H).
  destruct (mapM (runSlot inspect1) ss j1), (mapM (runSlot inspect2) ss j2);
    cbn in *; try contradiction; try exact IH.
  destruct IH as [<- IH]. auto.
Qed.

Lemma inspectChildren_same x i1 i2 :
  closure i1 = closure i2 ->
  sameResult (inspectChildren inspect1 (Some x) i1)
             (inspectChildren inspect2 (Some x) i2).
Proof.
  intros E. rewrite !inspectChildren_slots.
  destruct (enumerated x); [|cbn; auto]. unfold bind.
  pose proof (runSlots_same (slots x) i1 i2 E) as H.
  destruct (runSlots inspect1 (slots x) i1), (runSlots inspect2 (slots x) i2);
    cbn in *; try contradiction; try exact H. destruct H as [<- H]; auto.
Qed.

End SideBySide.

Section VisitEquations.

Variable VState : Type.
Variable v : Visitor VState.

Lemma Walk_Visit_eq n i :
  Walk.Visit v n i = Returned (snd (visit v n i)) (walkNext v n i).
Proof. unfold Walk.Visit, walkNext, visit. now destruct (call _ _). Qed.

Lemma Impl_Visit_eq n i :
  Impl.Visit v n i =
  Returned (node (fst (visit v n i)), snd (visit v n i)) (implNext v n i).
Proof. unfold Impl.Visit, implNext, visit. now destruct (call _ _). Qed.

Lemma Walk_Inspect_S fuel n i :
  Walk.Inspect v (S fuel) n i =
  if snd (visit v n i) then
    match inspectChildren (Walk.Inspect v fuel) n (walkNext v n i) with
    | Returned r j => Returned r (walkNext v None j)
    | Panicked p j => Panicked p j
    | Exhausted => Exhausted
    end
  else Returned n (walkNext v n i).
Proof.
  cbn [Walk.Inspect]. unfold bind at 1. rewrite Walk_Visit_eq.
  destruct (snd (visit v n i)); [|reflexivity]. unfold bind.
  destruct (inspectChildren _ _ _); try reflexivity.
  now rewrite Walk_Visit_eq.
Qed.

Lemma Impl_Inspect_S fuel n i :
  Impl.Inspect v (S fuel) n i =
  if snd (visit v n i) then
    match inspectChildren (Impl.Inspect v fuel) (node (fst (visit v n i)))
            (implNext v n i) with
    | Returned r j => Returned r (implNext v None j)
    | Panicked p j => Panicked p j
    | Exhausted => Exhausted
    end
  else Returned (node (fst (visit v n i))) (implNext v n i).
Proof.
  cbn [Impl.Inspect]. unfold bind at 1. rewrite Impl_Visit_eq. cbn [fst snd].
  destruct (snd (visit v n i)); [|reflexivity]. unfold bind.
  destruct (inspectChildren _ _ _); try reflexivity.
  now rewrite Impl_Visit_eq.
Qed.

End VisitEquations.

(** ** [Replace] during a closing call *)

Section ClosingReplace.

Variable VState : Type.
Variables v1 v2 : Visitor VState.
Hypothesis v_differ : differInClosingReplace v1 v2.

Lemma visit_node_same x i1 i2 :
  closure i1 = closure i2 ->
  node (fst (visit v1 (Some x) i1)) = node (fst (visit v2 (Some x) i2)) /\
  closure (fst (visit v1 (Some x) i1)) = closure (fst (visit v2 (Some x) i2)) /\
  snd (visit v1 (Some x) i1) = snd (visit v2 (Some x) i2).
Proof.
  intros E. destruct v_differ as [Hpre _].
  replace (visit v1 (Some x) i1) with (visit v2 (Some x) i1)
    by (unfold visit; now rewrite Hpre).
  now apply visit_closure.
Qed.

Lemma visit_nil_same i1 i2 :
  closure i1 = closure i2 ->
  closure (fst (visit v1 None i1)) = closure (fst (visit v2 None i2)).
Proof.
  intros E. destruct v_differ as [_ Hnil]. rewrite Hnil.
  now apply visit_closure.
Qed.

Lemma Walk_Inspect_same fuel :
  forall x i1 i2,
    closure i1 = closure i2 ->
    sameResult (Walk.Inspect v1 fuel (Some x) i1)
               (Walk.Inspect v2 fuel (Some x) i2).
Proof.
  induction fuel as [|fuel IH]; intros x i1 i2 E; [exact I|].
  rewrite !Walk_Inspect_S.
  destruct (visit_node_same x i1 i2 E) as (_ & Ec & <-).
  destruct (snd (visit v1 (Some x) i1)); [|cbn; auto].
  pose proof (inspectChildren_same VState _ _ IH x
                (walkNext v1 (Some x) i1) (walkNext v2 (Some x) i2) Ec) as H.
  destruct (inspectChildren (Walk.Inspect v1 fuel) (Some x) _) as [r1 j1|p1 j1|],
           (inspectChildren (Walk.Inspect v2 fuel) (Some x) _) as [r2 j2|p2 j2|];
    cbn in H; try contradiction; try exact H.
  destruct H as [<- H]. cbn. split; [reflexivity|]. now apply visit_nil_same.
Qed.

Lemma Impl_Inspect_same fuel :
  forall x i1 i2,
    closure i1 = closure i2 ->
    sameResult (Impl.Inspect v1 fuel (Some x) i1)
               (Impl.Inspect v2 fuel (Some x) i2).
Proof.
  induction fuel as [|fuel IH]; intros x i1 i2 E; [exact I|].
  rewrite !Impl_Inspect_S.
  destruct (visit_node_same x i1 i2 E) as (<- & Ec & <-).
  destruct (snd (visit v1 (Some x) i1)); [|cbn; auto].
  destruct (node (fst (visit v1 (Some x) i1))) as [y|]; [|cbn; auto].
  pose proof (inspectChildren_same VState _ _ IH y
                (implNext v1 (Some x) i1) (implNext v2 (Some x) i2) Ec) as H.
  destruct (inspectChildren (Impl.Inspect v1 fuel) (Some y) _) as [r1 j1|p1 j1|],
           (inspectChildren (Impl.Inspect v2 fuel) (Some y) _) as [r2 j2|p2 j2|];
    cbn in H; try contradiction; try exact H.
  destruct H as [<- H]. cbn. split; [reflexivity|]. now apply visit_nil_same.
Qed.

End ClosingReplace.

(** C7. What a visitor passes to [Replace] during a closing call has no
    effect on the traversal: two visitors that differ in this alone yield
    the same tree (or the same panic) and leave their closures in the same
    state, in [walk.go] as in the method. *)
Theorem replace_in_closing_call_ignored VState (v1 v2 : Visitor VState)
    fuel n i1 i2 :
  differInClosingReplace v1 v2 ->
  closure i1 = closure i2 ->
  sameResult (Walk.Inspect v1 fuel (Some n) i1)
             (Walk.Inspect v2 fuel (Some n) i2) /\
  sameResult (Impl.Inspect v1 fuel (Some n) i1)
             (Impl.Inspect v2 fuel (Some n) i2).
Proof.
  intros Hd E. split.
  - now apply Walk_Inspect_same.
  - now apply Impl_Inspect_same.
Qed.

Lemma map_snd_combine {A B} (ks : list A) (l : list B) :
  length ks = length l -> map snd (combine ks l) = l.
Proof.
  revert l. induction ks as [|k ks IH]; intros [|x l]; cbn; try discriminate; auto.
  intros [= E]. now rewrite IH.
Qed.

(** After the assignment the fields hold the values assigned. *)
Lemma slots_rebuild n ss :
  Forall2 sameShape (slots n) ss -> slots (rebuild n ss) = ss.
Proof.
  destruct n; cbn [slots]; intro H;
    repeat match goal with
           | H : Forall2 _ (_ :: _) _ |- _ => inversion H; subst; clear H
           | H : Forall2 _ [] _ |- _ => inversion H; subst; clear H
           end;
    repeat match goal with
           | H : sameShape _ ?s |- _ =>
               destruct s; destruct H as (?T & ?L & ?K); cbn in *;
               try contradiction; subst
           end;
    cbn; try reflexivity.
  rewrite map_snd_combine; [reflexivity|]. now rewrite !length_map in *.
Qed.

Lemma Forall3_and_concat {A B C} (Q : A -> B -> list C -> Prop) (F : C -> Prop)
    la lb tss :
  Forall3 (fun x y t => Q x y t /\ Forall F t) la lb tss ->
  Forall3 Q la lb tss /\ Forall F (concat tss).
Proof.
  induction 1 as [|a b t la lb tss [H1 H2] _ [IH1 IH2]]; cbn.
  - split; constructor.
  - split; [constructor; assumption|apply Forall_app; auto].
Qed.

(** ** The method: replacements are installed *)

Section ImplTrace.

Variable VState : Type.
Variable v : Visitor VState.

Lemma implNext_history n i :
  history (implNext v n i)
  = history i ++ [mkCall n (node (fst (visit v n i))) (snd (visit v n i))].
Proof. unfold implNext, visit. cbn. now rewrite call_history. Qed.

Lemma visit_MadeBy n i :
  MadeBy v (mkCall n (node (fst (visit v n i))) (snd (visit v n i))).
Proof. exists i. auto. Qed.

(** A traversal that returns a node has rewritten its argument into that
    node, by calls that each record a run of the visitor. *)
Lemma Impl_Inspect_Rewritten fuel :
  forall x i y i',
    Impl.Inspect v fuel (Some x) i = Returned (Some y) i' ->
    exists t, history i' = history i ++ t /\
              (Rewritten x y t /\ Forall (MadeBy v) t).
Proof.
  induction fuel as [|fuel IH]; intros x i y i'; [discriminate|].
  rewrite Impl_Inspect_S.
  pose proof (implNext_history (Some x) i) as Hh1.
  pose proof (visit_MadeBy (Some x) i) as Hm.
  destruct (snd (visit v (Some x) i)) eqn:Hr.
  - destruct (node (fst (visit v (Some x) i))) as [b|] eqn:Hb; [|discriminate].
    rewrite inspectChildren_slots.
    destruct (enumerated b); [|discriminate]. unfold bind.
    destruct (runSlots _ _ _) as [ss i2| |] eqn:E; try discriminate.
    cbn [ret]. intros [= <- <-].
    apply runSlots_R
      with (R := fun x y t => Rewritten x y t /\ Forall (MadeBy v) t)
      in E; [|exact IH].
    destruct E as (Sh & _ & tss & Hh & H3).
    apply Forall3_and_concat in H3 as [H3 HM].
    pose proof (slots_rebuild b ss Sh) as Hs.
    eexists. split; [|split].
    + rewrite implNext_history, Hh, Hh1, <- !app_assoc. cbn. reflexivity.
    + eapply Rewritten_continue with (b := b) (tss := tss); try reflexivity.
      * now rewrite Hs.
      * unfold children at 2. now rewrite Hs.
    + constructor; [exact Hm|]. apply Forall_app. split; [exact HM|].
      constructor; [apply visit_MadeBy|constructor].
  - intros [= Hy <-]. eexists. split; [exact Hh1|]. split.
    + apply Rewritten_stop; cbn; auto.
    + constructor; [exact Hm|constructor].
Qed.

End ImplTrace.

Lemma Forall3_nth {A B C} (Q : A -> B -> C -> Prop) la lb lc k a :
  Forall3 Q la lb lc -> nth_error la k = Some a ->
  exists b c, nth_error lb k = Some b /\ nth_error lc k = Some c /\ Q a b c.
Proof.
  intros H. revert k. induction H as [|a0 b0 c0 la lb lc H0 _ IH]; intros [|k]; cbn;
    try discriminate.
  - intros [= <-]. eauto.
  - apply IH.
Qed.

(** What a completed traversal of [x] returns is the node the visitor left
    under the cursor during the pre-order call on [x]: that very node when
    the visitor answered [false], that node with its child fields
    reassigned when it answered [true]. *)
Lemma Rewritten_head x y t :
  Rewritten x y t ->
  exists c b rest,
    t = c :: rest /\ callArg c = Some x /\ callLeft c = Some b /\
    y = rebuild b (slots y) /\ (callRecurse c = false -> y = b).
Proof.
  inversion 1 as [x0 y0 c Ha Hl Hr|x0 b y0 c tss c' Ha Hl Hr Hy]; subst.
  - exists c, y, []. repeat split; auto. now rewrite rebuild_slots.
  - exists c, b, (concat tss ++ [c']). repeat split; auto. congruence.
Qed.

(** The method installs replacements: when the traversal of a parent whose
    pre-order call left [p] under the cursor and was answered [true]
    returns [p'], every child slot [k] of [p'] holds what the traversal of
    the child at slot [k] of [p] returned, which is the node the visitor
    left under the cursor for that child. *)
Lemma Impl_replacement_installed VState (v : Visitor VState) fuel x i p' i' :
  Impl.Inspect v fuel (Some x) i = Returned (Some p') i' ->
  snd (visit v (Some x) i) = true ->
  exists p,
    node (fst (visit v (Some x) i)) = Some p /\
    forall k a, nth_error (children p) k = Some a ->
      exists y c b,
        nth_error (children p') k = Some y /\
        callArg c = Some a /\ callLeft c = Some b /\ MadeBy v c /\
        y = rebuild b (slots y) /\ (callRecurse c = false -> y = b).
Proof.
  intros E Hc.
  destruct (Impl_Inspect_Rewritten _ v fuel x i p' i' E) as (t & Hh & HR & HM).
  destruct fuel as [|fuel]; [discriminate|].
  rewrite Impl_Inspect_S, Hc in E.
  destruct (node (fst (visit v (Some x) i))) as [p|] eqn:Hp; [|discriminate].
  exists p. split; [reflexivity|]. intros k a Hk.
  rewrite inspectChildren_slots in E.
  destruct (enumerated p); [|discriminate]. unfold bind in E.
  destruct (runSlots _ _ _) as [ss i2| |] eqn:E2; try discriminate.
  cbn [ret] in E. injection E as <- <-.
  apply runSlots_R
    with (R := fun x y t => Rewritten x y t /\ Forall (MadeBy v) t)
    in E2; [|apply Impl_Inspect_Rewritten].
  destruct E2 as (Sh & _ & tss & _ & H3).
  unfold children in *. rewrite (slots_rebuild p ss Sh).
  destruct (Forall3_nth _ _ _ _ k a H3 Hk) as (y & tk & Hy & _ & HRk & HMk).
  destruct (Rewritten_head _ _ _ HRk) as (c & b & rest & -> & Ha & Hl & Hyb & Hstop).
  exists y, c, b. inversion HMk; subst. repeat split; auto.
Qed.

Lemma replace_in_closing_call_ignored_witness :
  sameResult (Walk.Inspect replaceWhenClosing 7 (Some sampleFile) idle)
             (Walk.Inspect continueAll 7 (Some sampleFile) idle) /\
  sameResult (Impl.Inspect replaceWhenClosing 7 (Some sampleFile) idle)
             (Impl.Inspect continueAll 7 (Some sampleFile) idle).
Proof.
  apply (replace_in_closing_call_ignored unit replaceWhenClosing continueAll
           7 sampleFile idle idle).
  - split; [intros s n; reflexivity|intros i; reflexivity].
  - reflexivity.
Defined.

(** ** The cursor *)






(** The [Visit] of [walk.go]'s inspector does not clear the cursor: it is
    left as the callback left it. *)
Lemma Walk_Visit_keeps_cursor VState (v : Visitor VState) n i :
  exists r i',
    Walk.Visit v n i = Returned r i' /\
    Current i' = node (fst (visit v n i)).
Proof. rewrite Walk_Visit_eq. eexists _, _. split; reflexivity. Qed.

(** ** [Replace] in [walk.go] *)

(** C1 on [walk.go]: the visitor of [TestChangePointerToInterface],
    during the pre-order call for the pointer expression at child slot 2
    of the call [f(x, *p)], installs [pkg.InterfaceName] by [Replace] and
    answers [false].  [walk.go] returns the call with the pointer
    expression still at slot 2; the method returns it with
    [pkg.InterfaceName] there. *)
Theorem replacement_dropped_by_walk :
  nth_error (children sampleCall) 2 = Some (StarExpr "*" (Ident "p")) /\
  (exists i',
     Walk.Inspect pointerToInterface 3 (Some sampleCall) idle
     = Returned (Some sampleCall) i' /\
     In (mkCall (Some (StarExpr "*" (Ident "p"))) (Some pkgInterfaceName) false)
        (history i')) /\
  (exists p' i',
     Impl.Inspect pointerToInterface 3 (Some sampleCall) idle
     = Returned (Some p') i' /\
     nth_error (children p') 2 = Some pkgInterfaceName).
Proof.
  split; [reflexivity|]. split.
  - eexists. split; [vm_compute; reflexivity|]. cbn. tauto.
  - eexists _, _. split; [vm_compute; reflexivity|reflexivity].
Qed.

(** ** Pairing of pre-order and closing calls *)



(** ** A visitor that answers [false] *)

(** C5. When the visitor answers [false] for [A], the traversal of [A]
    consists of that one call, so that no descendant of [A] is handed to
    the visitor.  [walk.go] returns [A] itself, descendants included; the
    method returns the node the visitor left under the cursor, which is
    [A] itself unless the visitor called [Replace]. *)
Theorem skip_children_honored VState (v : Visitor VState) fuel A i :
  snd (visit v (Some A) i) = false ->
  (exists c i',
     Walk.Inspect v (S fuel) (Some A) i = Returned (Some A) i' /\
     history i' = history i ++ [c] /\
     callArg c = Some A /\ callRecurse c = false) /\
  (exists c i',
     Impl.Inspect v (S fuel) (Some A) i = Returned (callLeft c) i' /\
     history i' = history i ++ [c] /\
     callArg c = Some A /\ callRecurse c = false /\
     (noReplace (v (closure i) (Some A)) -> callLeft c = Some A)).
Proof.
  intros Hstop. split.
  - rewrite Walk_Inspect_S, Hstop.
    destruct (Walk_Visit_returns _ v (Some A) i) as (c & i1 & E & Ha & _ & Hr & Hh).
    rewrite Walk_Visit_eq in E. injection E as _ <-.
    rewrite Hstop in Hr. exists c, (walkNext v (Some A) i). auto.
  - rewrite Impl_Inspect_S, Hstop.
    eexists (mkCall (Some A) (node (fst (visit v (Some A) i))) false), _.
    split; [reflexivity|]. split; [now rewrite implNext_history, Hstop|].
    repeat split. intros Hn. cbn. unfold visit.
    now rewrite noReplace_call.
Qed.

Lemma skip_children_honored_witness :
  (exists c i',
     Walk.Inspect stopAll 1 (Some sampleFile) idle = Returned (Some sampleFile) i' /\
     history i' = history idle ++ [c] /\
     callArg c = Some sampleFile /\ callRecurse c = false) /\
  (exists c i',
     Impl.Inspect stopAll 1 (Some sampleFile) idle = Returned (callLeft c) i' /\
     history i' = history idle ++ [c] /\
     callArg c = Some sampleFile /\ callRecurse c = false /\
     (noReplace (stopAll (closure idle) (Some sampleFile)) ->
      callLeft c = Some sampleFile)).
Proof.
  apply (skip_children_honored unit stopAll 0 sampleFile idle). reflexivity.
Defined.

(** ** The scenarios of the tests, on the method *)

(** [TestPrependingFuncName]: the one function declaration is renamed,
    parameters and body are as they were. *)
Example prepending_func_name :
  exists i',
    Impl.Inspect prependingFuncName 7 (Some sampleFile) idle
    = Returned
        (Some (File "sample.go" None (Ident "sample")
                 [FuncDecl "func" None None (Ident "FooWidget")
                    (FuncType ""
                       (Some (FieldList ""
                                [Field "" None [Ident "a"]
                                   (StarExpr "*" (Ident "T")) None None]))
                       None)
                    (Some (BlockStmt "" [ReturnStmt "return" []]))] []))
        i'.
Proof. eexists. vm_compute. reflexivity. Qed.

(** [TestChangePointerToInterface]: the pointer type is replaced by the
    qualified name, whose children are not visited. *)
Example pointer_to_interface :
  exists i',
    Impl.Inspect pointerToInterface 7 (Some sampleFile) idle
    = Returned
        (Some (File "sample.go" None (Ident "sample")
                 [FuncDecl "func" None None (Ident "Widget")
                    (FuncType ""
                       (Some (FieldList ""
                                [Field "" None [Ident "a"]
                                   pkgInterfaceName None None]))
                       None)
                    (Some (BlockStmt "" [ReturnStmt "return" []]))] []))
        i' /\
    ~ In (Ident "pkg") (visited (history i')).
Proof.
  eexists. split; [vm_compute; reflexivity|].
  vm_compute. intros H.
  repeat (destruct H as [H|H]; [discriminate H|]). exact H.
Qed.

(** ** The height bound is only a bound *)

Lemma wellTyped_mono k :
  forall n k', wellTyped k n = true -> k <= k' -> wellTyped k' n = true.
Proof.
  induction k as [|k IH]; intros n [|k'] W L; try discriminate; [lia|].
  cbn [wellTyped] in *. apply andb_prop in W as [E W].
  apply andb_true_intro. split; [exact E|].
  rewrite forallb_forall in *. intros s Hs. specialize (W s Hs).
  rewrite forallb_forall in *. intros x Hx.
  destruct (andb_prop _ _ (W x Hx)) as [C Wx].
  apply andb_true_intro. split; [exact C|]. apply IH; [exact Wx|lia].
Qed.

Lemma flat_map_Forall_ext {A B} (f g : A -> list B) l :
  Forall (fun x => f x = g x) l -> flat_map f l = flat_map g l.
Proof. induction 1 as [|x l E _ IH]; cbn; [reflexivity|now rewrite E, IH]. Qed.

(** The listing in document order of a well-typed tree of height at most
    [k] is the same for every larger bound. *)
Lemma preorder_mono k :
  forall n k', wellTyped k n = true -> k <= k' -> preorder k' n = preorder k n.
Proof.
  induction k as [|k IH]; intros n [|k'] W L; try discriminate; [lia|].
  apply wellTyped_slots in W as [_ W]. apply slotOk_children in W.
  cbn [preorder]. f_equal. apply flat_map_Forall_ext.
  eapply Forall_impl; [|exact W]. cbn. intros x Wx. apply IH; [exact Wx|lia].
Qed.

Example preorder_sampleCall :
  wellTyped 3 sampleCall = true /\
  preorder 3 sampleCall
  = [sampleCall; Ident "f"; Ident "x"; StarExpr "*" (Ident "p"); Ident "p"].
Proof. split; reflexivity. Qed.

(** * Further properties of the two engines *)

(** ** Induction on the calls of a traversal *)

Lemma Paired_induction (P : Node -> list Call -> Prop) :
  (forall n c, callArg c = Some n -> callRecurse c = false -> P n [c]) ->
  (forall n c tss c',
     callArg c = Some n -> callRecurse c = true ->
     Forall2 Paired (children n) tss ->
     Forall2 P (children n) tss ->
     callArg c' = None ->
     P n (c :: concat tss ++ [c'])) ->
  forall n t, Paired n t -> P n t.
Proof.
  intros Hs Hc. fix IH 3. intros n t H.
  destruct H as [n c Ha Hr|n c tss c' Ha Hr Hk Ha'].
  - now apply Hs.
  - apply Hc; try assumption.
    revert Hk. generalize (children n) as l. revert tss.
    fix IHl 3. intros tss l Hk.
    destruct Hk as [|x t l tss Hx Hk]; constructor.
    + apply IH, Hx.
    + apply IHl, Hk.
Qed.

Lemma nilCalls_app t t' : nilCalls (t ++ t') = nilCalls t ++ nilCalls t'.
Proof. apply filter_app. Qed.

Lemma continuedCalls_app t t' :
  continuedCalls (t ++ t') = continuedCalls t ++ continuedCalls t'.
Proof. apply filter_app. Qed.

Lemma Paired_balanced n t :
  Paired n t ->
  length (nilCalls t) = length (continuedCalls t) /\
  length t = length (visited t) + length (continuedCalls t).
Proof.
  induction 1 as [n c Ha Hr|n c tss c' Ha Hr Hk IH Ha'] using Paired_induction.
  - unfold nilCalls, continuedCalls, visited. cbn. rewrite Ha, Hr. cbn. auto.
  - assert (length (nilCalls (concat tss)) = length (continuedCalls (concat tss)) /\
            length (concat tss)
            = length (visited (concat tss)) + length (continuedCalls (concat tss)))
      as [E1 E2].
    { clear Hk. induction IH as [|x t l tss [H1 H2] _ [IH1 IH2]]; cbn; [auto|].
      rewrite nilCalls_app, continuedCalls_app, visited_app, !length_app. lia. }
    change (c :: concat tss ++ [c']) with ([c] ++ concat tss ++ [c']).
    rewrite !nilCalls_app, !continuedCalls_app, !visited_app, !length_app.
    unfold nilCalls at 1 3, continuedCalls at 1 3, visited at 1 3.
    cbn. rewrite Ha, Ha', Hr. cbn. lia.
Qed.

Lemma MadeBy_continues VState (v : Visitor VState) t :
  (forall s x, answers true (v s (Some x))) ->
  Forall (MadeBy v) t ->
  length (continuedCalls t) = length (visited t).
Proof.
  intros Hv. induction 1 as [|c t (j & _ & Hj) _ IH]; [reflexivity|].
  unfold continuedCalls, visited in *. cbn.
  destruct (callArg c) as [x|] eqn:Ha; [|exact IH].
  unfold visit in Hj. rewrite (answers_call _ true) in Hj by apply Hv.
  rewrite Hj. cbn. now rewrite IH.
Qed.

(** ** [walk.go]: how many times the visitor is called *)

(** X1. In every traversal by [walk.go] that returns, the calls with a nil
    argument (the closing calls) are as many as the pre-order calls
    answered [true], and the calls altogether are the pre-order calls plus
    those answered [true].  With a visitor that answers [true] to every
    pre-order call, a well-typed tree of [N] nodes costs exactly [2 * N]
    calls. *)
Theorem walk_calls_balance VState (v : Visitor VState) k fuel n i :
  (forall r i',
     Walk.Inspect v fuel (Some n) i = Returned r i' ->
     exists t,
       history i' = history i ++ t /\
       length (nilCalls t) = length (continuedCalls t) /\
       length t = length (visited t) + length (continuedCalls t)) /\
  ((forall s x, answers true (v s (Some x))) ->
   wellTyped k n = true -> k <= fuel ->
   exists i' t,
     Walk.Inspect v fuel (Some n) i = Returned (Some n) i' /\
     history i' = history i ++ t /\
     length t = 2 * length (preorder k n)).
Proof.
  split.
  - intros r i' E.
    apply Walk_Inspect_Paired in E as (y & t & _ & Hh & _ & HP & _).
    exists t. split; [exact Hh|]. exact (Paired_balanced _ _ HP).
  - intros Hv W L.
    destruct (Walk_Inspect_returns _ v fuel k n i W L) as [i' E].
    destruct (Walk_Inspect_Paired _ v fuel n i _ _ E)
      as (y & t & _ & Hh & _ & HP & HM).
    exists i', t. repeat split; try assumption.
    destruct (Paired_balanced _ _ HP) as [_ Hl].
    rewrite (MadeBy_continues _ v t Hv HM) in Hl.
    rewrite (Paired_preorder _ v Hv k n t W HP HM) in Hl. lia.
Qed.

Lemma walk_calls_balance_witness :
  (exists i' t,
     Walk.Inspect pointerToInterface 7 (Some sampleFile) (NewInspector tt)
     = Returned (Some sampleFile) i' /\
     history i' = history (NewInspector tt) ++ t /\
     length (nilCalls t) = length (continuedCalls t)) /\
  (exists i' t,
     Walk.Inspect continueAll 7 (Some sampleFile) (NewInspector tt)
     = Returned (Some sampleFile) i' /\
     history i' = history (NewInspector tt) ++ t /\
     length t = 24).
Proof.
  destruct (walk_calls_balance unit pointerToInterface 7 7 sampleFile
              (NewInspector tt)) as [H1 _].
  destruct (walk_calls_balance unit continueAll 7 7 sampleFile
              (NewInspector tt)) as [_ H2].
  split.
  - assert (E : exists i',
               Walk.Inspect pointerToInterface 7 (Some sampleFile) (NewInspector tt)
               = Returned (Some sampleFile) i')
      by (eexists; vm_compute; reflexivity).
    destruct E as [i' E]. destruct (H1 _ _ E) as (t & Hh & Hb & _).
    exists i', t. auto.
  - destruct H2 as (i' & t & E & Hh & Hl);
      [intros s x; reflexivity|reflexivity|lia|].
    exists i', t. split; [exact E|]. split; [exact Hh|exact Hl].
Defined.

(** ** The method: coverage in document order *)


Section ImplCoverage.

Variable VState : Type.
Variable v : Visitor VState.
Hypothesis v_continues : forall s x, answers true (v s (Some x)).
Hypothesis v_keeps : forall s n, noReplace (v s n).



End ImplCoverage.



(** ** Assigning to the fields keeps the variant *)

Ltac split_match :=
  repeat match goal with
         | |- context [match ?x with _ => _ end] => destruct x
         end.


Lemma enumerated_rebuild n ss : enumerated (rebuild n ss) = enumerated n.
Proof.
  destruct n; cbn [rebuild]; try reflexivity; split_match; reflexivity.
Qed.

(** ** Traversals that compute a function of their argument *)

Section Mapping.

Variable VState : Type.
Variable inspect : option Node -> M VState (option Node).
Variable P : Node -> Prop.
Variable g : Node -> Node.
Hypothesis inspect_g : forall x i,
  P x -> exists i', inspect (Some x) i = Returned (Some (g x)) i'.
Hypothesis conforms_g : forall t x,
  P x -> conforms t x = true -> conforms t (g x) = true.





End Mapping.

(** ** The method as a top-down rewriting engine *)



Lemma pointerToInterface_rewritesBy : rewritesBy pointerRule pointerToInterface.
Proof. intros x i. destruct x; split; reflexivity. Qed.


(** ** The method keeps trees well typed *)

Lemma typed_bound l :
  Forall typed l -> exists k, Forall (fun x => wellTyped k x = true) l.
Proof.
  induction 1 as [|x l [k Hx] _ [k' IH]]; [exists 0; constructor|].
  exists (Nat.max k k'). constructor.
  - apply (wellTyped_mono k); [exact Hx|lia].
  - eapply Forall_impl; [|exact IH]. cbn. intros y Hy.
    apply (wellTyped_mono k'); [exact Hy|lia].
Qed.

Lemma wellTyped_assemble k ss :
  Forall slotConforms ss ->
  Forall (fun x => wellTyped k x = true) (flat_map slotNodes ss) ->
  forallb (fun s =>
    forallb (fun x => conforms (slotType s) x && wellTyped k x)
            (slotNodes s)) ss = true.
Proof.
  induction 1 as [|s ss Hs _ IH]; cbn; [reflexivity|].
  intros H. apply Forall_app in H as [H1 H2].
  rewrite (IH H2), andb_true_r. apply forallb_forall. intros x Hx.
  unfold slotConforms in Hs. rewrite Forall_forall in Hs, H1.
  now rewrite (Hs x Hx), (H1 x Hx).
Qed.

Lemma Forall3_transfer {A B C} (Q : A -> B -> C -> Prop) (F : A -> Prop)
    (G : B -> Prop) la lb lc :
  Forall3 (fun x y t => Q x y t /\ (F x -> G y)) la lb lc ->
  Forall F la -> Forall G lb.
Proof.
  induction 1 as [|a b c la lb lc [_ H] _ IH]; intros HF; [constructor|].
  inversion HF; subst. constructor; auto.
Qed.

(** X4. When the visitor leaves only well-typed nodes under the cursor of
    well-typed nodes, the tree the method returns for a well-typed tree is
    well typed: every child slot holds a node of the static type of its
    field, thanks to the type assertion on every assignment. *)
Theorem method_preserves_typing VState (v : Visitor VState) fuel :
  (forall x i b,
     typed x -> node (fst (visit v (Some x) i)) = Some b -> typed b) ->
  forall x i y i',
    typed x ->
    Impl.Inspect v fuel (Some x) i = Returned (Some y) i' ->
    typed y.
Proof.
  intros Hv. induction fuel as [|fuel IH]; intros x i y i' Tx; [discriminate|].
  rewrite Impl_Inspect_S.
  destruct (snd (visit v (Some x) i)).
  - destruct (node (fst (visit v (Some x) i))) as [b|] eqn:Hb; [|discriminate].
    destruct (Hv x i b Tx Hb) as [[|kb] Wb]; [discriminate|].
    apply wellTyped_slots in Wb as [En Sl]. apply slotOk_children in Sl.
    rewrite inspectChildren_slots, En. unfold bind.
    destruct (runSlots _ _ _) as [ss i2| |] eqn:E; try discriminate.
    cbn [ret]. intros [= <- <-].
    apply runSlots_R
      with (R := fun x y t => (Rewritten x y t /\ Forall (MadeBy v) t) /\
                              (typed x -> typed y))
      in E.
    + destruct E as (Sh & Cf & tss & _ & H3).
      assert (Forall typed (flat_map slotNodes ss)) as Ht.
      { eapply Forall3_transfer; [exact H3|].
        eapply Forall_impl; [|exact Sl]. intros z Hz. now exists kb. }
      destruct (typed_bound _ Ht) as [K HK].
      exists (S K). cbn [wellTyped].
      rewrite enumerated_rebuild, En, (slots_rebuild b ss Sh). cbn.
      now apply wellTyped_assemble.
    + intros z j z' j' Ez.
      destruct (Impl_Inspect_Rewritten _ v fuel z j z' j' Ez) as (t & Hh & HR).
      exists t. split; [exact Hh|]. split; [exact HR|].
      intros Tz. eapply IH; eassumption.
  - intros [= Hy <-]. eapply Hv; eassumption.
Qed.

Lemma method_preserves_typing_witness :
  typed (topDown pointerRule 7 sampleFile).
Proof.
  assert (E : exists i',
             Impl.Inspect pointerToInterface 7 (Some sampleFile) (NewInspector tt)
             = Returned (Some (topDown pointerRule 7 sampleFile)) i')
    by (eexists; vm_compute; reflexivity).
  destruct E as [i' E].
  eapply (method_preserves_typing unit pointerToInterface 7); [| |exact E].
  - intros x i b Tx Hb. destruct (pointerToInterface_rewritesBy x i) as [Hn _].
    rewrite Hn in Hb. injection Hb as <-.
    destruct x; try exact Tx. exists 2. reflexivity.
  - exists 7. reflexivity.
Defined.

(** ** A replacement that does not fit its slot *)

Lemma mapM_inspectAs_rejected VState
    (inspect : option Node -> M VState (option Node)) t i l1 l1' j a r j' l2 :
  Chain inspect t i l1 l1' j ->
  inspect (Some a) j = Returned r j' ->
  rejected t r ->
  mapM (inspectAs inspect t) (l1 ++ a :: l2) i = Panicked TypeAssertion j'.
Proof.
  intros Hc Ea Hr. induction Hc as [i|i x y k l l' i' E C _ IH]; cbn.
  - unfold bind, inspectAs at 1, bind. rewrite Ea.
    destruct r as [b|]; cbn in *; [now rewrite Hr|reflexivity].
  - unfold bind. rewrite (proj2 (inspectAs_Returned _ inspect t x i y k) (conj E C)).
    now rewrite IH.
Qed.

(** X5. In each of the four helpers, when the elements before some
    position were inspected and accepted, and the inspection of the element
    at that position returns nil or a node that is not of the element type,
    the helper panics at the type assertion, in the state that inspection
    left: the elements after it are not inspected. *)
Theorem helper_panics_on_misfit VState
    (inspect : option Node -> M VState (option Node)) i l1 l1' j a r j' l2 :
  inspect (Some a) j = Returned r j' ->
  (Chain inspect TyIdent i l1 l1' j -> rejected TyIdent r ->
   inspectIdentList inspect (l1 ++ a :: l2) i = Panicked TypeAssertion j') /\
  (Chain inspect TyExpr i l1 l1' j -> rejected TyExpr r ->
   inspectExprList inspect (l1 ++ a :: l2) i = Panicked TypeAssertion j') /\
  (Chain inspect TyStmt i l1 l1' j -> rejected TyStmt r ->
   inspectStmtList inspect (l1 ++ a :: l2) i = Panicked TypeAssertion j') /\
  (Chain inspect TyDecl i l1 l1' j -> rejected TyDecl r ->
   inspectDeclList inspect (l1 ++ a :: l2) i = Panicked TypeAssertion j').
Proof.
  intros Ea. repeat split; intros Hc Hr;
    eapply mapM_inspectAs_rejected; eassumption.
Qed.

Lemma helper_panics_on_misfit_witness :
  inspectIdentList (Impl.Inspect identToBlock 1) ([] ++ Ident "a" :: [Ident "b"])
    (NewInspector tt)
  = Panicked TypeAssertion
      (implNext identToBlock (Some (Ident "a")) (NewInspector tt)).
Proof.
  apply (helper_panics_on_misfit unit (Impl.Inspect identToBlock 1)
           (NewInspector tt) [] [] (NewInspector tt) (Ident "a")
           (Some (BlockStmt "" []))
           (implNext identToBlock (Some (Ident "a")) (NewInspector tt))
           [Ident "b"]).
  - reflexivity.
  - constructor.
  - reflexivity.
Defined.

(** ** A visitor that keeps the method busy *)

Section NeverReturns.

Variable VState : Type.
Variable inspect : option Node -> M VState (option Node).
Hypothesis inspect_never : forall x i, returns (inspect (Some x) i) = false.

Lemma inspectAs_never t x i : returns (inspectAs inspect t x i) = false.
Proof.
  unfold inspectAs, bind. pose proof (inspect_never x i) as H.
  destruct (inspect (Some x) i); [discriminate H|reflexivity|reflexivity].
Qed.

Lemma runSlot_never s i :
  slotNodes s <> [] -> returns (runSlot inspect s i) = false.
Proof.
  destruct s as [t x|t [x|]|t [|x l]]; cbn; intros H; try contradiction;
    unfold bind; pose proof (inspectAs_never t x i) as Hx;
    destruct (inspectAs inspect t x i); try discriminate Hx; reflexivity.
Qed.

Lemma runSlot_empty s i :
  slotNodes s = [] -> runSlot inspect s i = Returned s i.
Proof. destruct s as [t x|t [x|]|t [|x l]]; cbn; try discriminate; reflexivity. Qed.

Lemma runSlots_never ss i :
  flat_map slotNodes ss <> [] -> returns (runSlots inspect ss i) = false.
Proof.
  unfold runSlots. induction ss as [|s ss IH]; cbn; intros H; [contradiction|].
  unfold bind. destruct (slotNodes s) as [|x l] eqn:Es.
  - rewrite (runSlot_empty s i Es). specialize (IH H).
    destruct (mapM (runSlot inspect) ss i); [discriminate IH|reflexivity|reflexivity].
  - assert (slotNodes s <> []) as Hs by (rewrite Es; discriminate).
    pose proof (runSlot_never s i Hs) as Hn.
    destruct (runSlot inspect s i); [discriminate Hn|reflexivity|reflexivity].
Qed.

End NeverReturns.

(** X6. The method follows the replacement into its children, so a visitor
    decides how deep the traversal goes: when the visitor answers [true] to
    every pre-order call and always leaves a node with at least one child
    under the cursor, the traversal of any node does not return, whatever
    depth of stack it is given. *)
Theorem method_never_returns VState (v : Visitor VState) :
  (forall x i,
     snd (visit v (Some x) i) = true /\
     exists b, node (fst (visit v (Some x) i)) = Some b /\ children b <> []) ->
  forall fuel x i, returns (Impl.Inspect v fuel (Some x) i) = false.
Proof.
  intros Hv. induction fuel as [|fuel IH]; intros x i; [reflexivity|].
  destruct (Hv x i) as (Hr & b & Hb & Hk).
  rewrite Impl_Inspect_S, Hr, Hb, inspectChildren_slots.
  destruct (enumerated b); [|reflexivity]. unfold bind.
  pose proof (runSlots_never VState (Impl.Inspect v fuel) IH (slots b)
                (implNext v (Some x) i) Hk) as Hn.
  destruct (runSlots _ _ _); [discriminate Hn|reflexivity|reflexivity].
Qed.

Lemma method_never_returns_witness :
  returns (Impl.Inspect wrapInParens 100 (Some (Ident "x")) (NewInspector tt))
  = false.
Proof.
  apply (method_never_returns unit wrapInParens).
  intros x i. split; [reflexivity|].
  exists (ParenExpr "" x). split; [reflexivity|discriminate].
Defined.

(** ** Using an inspector again *)

(** X7. What a traversal returns (or the panic it raises) and the state it
    leaves in the visitor closure depend on the inspector only through the
    state of the closure: not on the cursor left by an earlier [Visit], nor
    on the calls made before.  An inspector can be used for one traversal
    after another. *)
Theorem inspector_reusable VState (v : Visitor VState) fuel n i1 i2 :
  closure i1 = closure i2 ->
  sameResult (Walk.Inspect v fuel (Some n) i1)
             (Walk.Inspect v fuel (Some n) i2) /\
  sameResult (Impl.Inspect v fuel (Some n) i1)
             (Impl.Inspect v fuel (Some n) i2).
Proof.
  intros E.
  assert (differInClosingReplace v v) as Hd by (split; reflexivity).
  split; [now apply Walk_Inspect_same|now apply Impl_Inspect_same].
Qed.

Lemma inspector_reusable_witness :
  sameResult
    (Walk.Inspect pointerToInterface 7 (Some sampleFile)
       (walkNext stopAll (Some sampleCall) (NewInspector tt)))
    (Walk.Inspect pointerToInterface 7 (Some sampleFile) (NewInspector tt)) /\
  sameResult
    (Impl.Inspect pointerToInterface 7 (Some sampleFile)
       (walkNext stopAll (Some sampleCall) (NewInspector tt)))
    (Impl.Inspect pointerToInterface 7 (Some sampleFile) (NewInspector tt)).
Proof.
  apply (inspector_reusable unit pointerToInterface 7 sampleFile). reflexivity.
Defined.

(** ** The cursor after a traversal *)

Section AfterSlots.

Variable VState : Type.
Variable inspect : option Node -> M VState (option Node).
Variable Q : inspectorImpl VState -> Prop.
Hypothesis inspect_Q : forall x i j,
  inspectorAfter (inspect (Some x) i) = Some j -> Q j.

Lemma inspectAs_after t x i j :
  inspectorAfter (inspectAs inspect t x i) = Some j -> Q j.
Proof.
  unfold inspectAs, bind. pose proof (inspect_Q x i) as H.
  destruct (inspect (Some x) i) as [[y|] k|p k|]; cbn.
  - destruct (conforms t y); cbn; intros [= <-]; now apply H.
  - intros [= <-]. now apply H.
  - intros [= <-]. now apply H.
  - discriminate.
Qed.

Lemma mapM_inspectAs_after t l i j :
  Q i -> inspectorAfter (mapM (inspectAs inspect t) l i) = Some j -> Q j.
Proof.
  revert i. induction l as [|x l IH]; intros i Qi; cbn.
  - now intros [= <-].
  - unfold bind. pose proof (inspectAs_after t x i) as H.
    destruct (inspectAs inspect t x i) as [y k|p k|]; cbn.
    + specialize (IH k (H k eq_refl)).
      destruct (mapM (inspectAs inspect t) l k); cbn in *; auto.
    + intros [= <-]. now apply H.
    + discriminate.
Qed.

Lemma runSlot_after s i j :
  Q i -> inspectorAfter (runSlot inspect s i) = Some j -> Q j.
Proof.
  intros Qi. destruct s as [t x|t [x|]|t l]; cbn; unfold bind.
  - pose proof (inspectAs_after t x i) as H.
    destruct (inspectAs inspect t x i); cbn in *; auto.
  - pose proof (inspectAs_after t x i) as H.
    destruct (inspectAs inspect t x i); cbn in *; auto.
  - now intros [= <-].
  - pose proof (mapM_inspectAs_after t l i) as H.
    destruct (mapM (inspectAs inspect t) l i); cbn in *; auto.
Qed.

Lemma runSlots_after ss i j :
  Q i -> inspectorAfter (runSlots inspect ss i) = Some j -> Q j.
Proof.
  unfold runSlots. revert i. induction ss as [|s ss IH]; intros i Qi; cbn.
  - now intros [= <-].
  - unfold bind. pose proof (runSlot_after s i) as H.
    destruct (runSlot inspect s i) as [s' k|p k|]; cbn.
    + specialize (IH k (H k Qi eq_refl)).
      destruct (mapM (runSlot inspect) ss k); cbn in *; auto.
    + intros [= <-]. now apply H.
    + discriminate.
Qed.

Lemma inspectChildren_after n i j :
  Q i -> inspectorAfter (inspectChildren inspect n i) = Some j -> Q j.
Proof.
  intros Qi. destruct n as [n|]; [|now intros [= <-]].
  rewrite inspectChildren_slots.
  destruct (enumerated n); [|now intros [= <-]]. unfold bind.
  pose proof (runSlots_after (slots n) i) as H.
  destruct (runSlots inspect (slots n) i); cbn in *; auto.
Qed.

End AfterSlots.

(** X8. The method never leaves a node under the cursor: whatever the
    node, the visitor and the inspector it starts from, when the traversal
    returns or panics the cursor is nil. *)
Theorem method_leaves_cursor_nil VState (v : Visitor VState) fuel n i j :
  inspectorAfter (Impl.Inspect v fuel n i) = Some j -> Current j = None.
Proof.
  revert n i j. induction fuel as [|fuel IH]; intros n i j; [discriminate|].
  rewrite Impl_Inspect_S.
  destruct (snd (visit v n i)); [|now intros [= <-]].
  pose proof (inspectChildren_after VState (Impl.Inspect v fuel)
                (fun j => Current j = None)
                (fun x i j => IH (Some x) i j)
                (node (fst (visit v n i))) (implNext v n i)) as H.
  destruct (inspectChildren _ _ _) as [r k|p k|]; cbn in *.
  - now intros [= <-].
  - intros [= <-]. now apply H.
  - discriminate.
Qed.

Lemma method_leaves_cursor_nil_witness :
  Current (implNext identToBlock (Some (Ident "sample"))
             (implNext identToBlock (Some sampleFile)
                (walkNext stopAll (Some sampleCall) (NewInspector tt))))
  = None.
Proof.
  apply (method_leaves_cursor_nil unit identToBlock 7 (Some sampleFile)
           (walkNext stopAll (Some sampleCall) (NewInspector tt))).
  reflexivity.
Defined.

(** X9. [walk.go]'s inspector never clears the cursor: after a traversal
    that returns, [Current()] answers what the last callback left there.
    After a traversal whose visitor answered [false] at the root without
    calling [Replace], it still answers the root. *)
Theorem walk_leaves_cursor_stale VState (v : Visitor VState) fuel n i :
  (forall r i',
     Walk.Inspect v fuel (Some n) i = Returned r i' ->
     exists h c, history i' = h ++ [c] /\ Current i' = callLeft c) /\
  (snd (visit v (Some n) i) = false ->
   noReplace (v (closure i) (Some n)) ->
   exists i',
     Walk.Inspect v (S fuel) (Some n) i = Returned (Some n) i' /\
     Current i' = Some n).
Proof.
  split.
  - intros r i'. destruct fuel as [|fuel]; [discriminate|].
    rewrite Walk_Inspect_S. destruct (snd (visit v (Some n) i)).
    + destruct (inspectChildren _ _ _) as [r' k|p k|]; try discriminate.
      intros [= <- <-]. eexists _, _. split; reflexivity.
    + intros [= <- <-]. eexists _, _. split; reflexivity.
  - intros Hs Hn. rewrite Walk_Inspect_S, Hs. eexists. split; [reflexivity|].
    cbn. unfold visit. now rewrite noReplace_call.
Qed.

Lemma walk_leaves_cursor_stale_witness :
  (exists i' h c,
     Walk.Inspect pointerToInterface 7 (Some sampleFile) (NewInspector tt)
     = Returned (Some sampleFile) i' /\
     history i' = h ++ [c] /\ Current i' = callLeft c) /\
  (exists i',
     Walk.Inspect stopAll 1 (Some sampleCall) (NewInspector tt)
     = Returned (Some sampleCall) i' /\
     Current i' = Some sampleCall).
Proof.
  split.
  - destruct (walk_leaves_cursor_stale unit pointerToInterface 7 sampleFile
                (NewInspector tt)) as [H _].
    assert (E : exists i',
               Walk.Inspect pointerToInterface 7 (Some sampleFile) (NewInspector tt)
               = Returned (Some sampleFile) i')
      by (eexists; vm_compute; reflexivity).
    destruct E as [i' E]. destruct (H _ _ E) as (h & c & Hh & Hc).
    exists i', h, c. auto.
  - apply (walk_leaves_cursor_stale unit stopAll 0 sampleCall (NewInspector tt));
      [reflexivity|exact I].
Defined.

(** ** Nodes without children *)




(** ** The default case of the method *)

(** X11. In the method the switch dispatches on the node the visitor left
    under the cursor.  When the visitor answered [true] and left nil (it
    was handed nil, or called [Replace(nil)]) or a node of a variant outside
    the enumeration, the traversal panics with the panic of the default
    case right after that call; when the visitor answered [false], what it
    left under the cursor is returned, nil included. *)
Theorem method_default_case VState (v : Visitor VState) fuel n i :
  (snd (visit v n i) = true ->
   match node (fst (visit v n i)) with
   | None => True
   | Some b => enumerated b = false
   end ->
   Impl.Inspect v (S fuel) n i
   = Panicked UnexpectedNodeType (implNext v n i)) /\
  (snd (visit v n i) = false ->
   Impl.Inspect v (S fuel) n i
   = Returned (node (fst (visit v n i))) (implNext v n i)).
Proof.
  split.
  - intros Hc Hb. rewrite Impl_Inspect_S, Hc.
    destruct (node (fst (visit v n i))) as [b|]; [|reflexivity].
    now rewrite inspectChildren_slots, Hb.
  - intros Hs. now rewrite Impl_Inspect_S, Hs.
Qed.

Lemma method_default_case_witness :
  Impl.Inspect replaceByNil 1 (Some sampleFile) (NewInspector tt)
  = Panicked UnexpectedNodeType
      (implNext replaceByNil (Some sampleFile) (NewInspector tt)) /\
  Impl.Inspect stopAll 1 None (NewInspector tt)
  = Returned None (implNext stopAll None (NewInspector tt)).
Proof.
  split.
  - apply (method_default_case unit replaceByNil 0 (Some sampleFile)
             (NewInspector tt)); [reflexivity|exact I].
  - apply (method_default_case unit stopAll 0 None (NewInspector tt)).
    reflexivity.
Defined.

(** ** Replacements in the method *)

(** X12. The method installs what the visitor replaces: when the traversal
    of a node whose pre-order call was answered [true] returns [p'], and
    [p] is the node the visitor left under the cursor for it, [p'] has as
    many children as [p], and child slot [k] of [p'] holds the node the
    visitor left under the cursor during the pre-order call for child [k]
    of [p]: that very node when the visitor answered [false] for the child,
    that node with its own child fields reassigned when it answered
    [true]. *)
Theorem method_installs_replacements VState (v : Visitor VState)
    fuel x i p' i' :
  Impl.Inspect v fuel (Some x) i = Returned (Some p') i' ->
  snd (visit v (Some x) i) = true ->
  exists p,
    node (fst (visit v (Some x) i)) = Some p /\
    length (children p') = length (children p) /\
    forall k a, nth_error (children p) k = Some a ->
      exists y c b,
        nth_error (children p') k = Some y /\
        callArg c = Some a /\ callLeft c = Some b /\ MadeBy v c /\
        y = rebuild b (slots y) /\ (callRecurse c = false -> y = b).
Proof.
  intros E Hc. destruct fuel as [|fuel]; [discriminate|].
  rewrite Impl_Inspect_S, Hc in E.
  destruct (node (fst (visit v (Some x) i))) as [p|] eqn:Hp; [|discriminate].
  exists p. split; [reflexivity|].
  rewrite inspectChildren_slots in E.
  destruct (enumerated p); [|discriminate]. unfold bind in E.
  destruct (runSlots _ _ _) as [ss i2| |] eqn:E2; try discriminate.
  cbn [ret] in E. injection E as <- <-.
  apply runSlots_R
    with (R := fun x y t => Rewritten x y t /\ Forall (MadeBy v) t)
    in E2; [|apply Impl_Inspect_Rewritten].
  destruct E2 as (Sh & _ & tss & _ & H3).
  unfold children in *. rewrite (slots_rebuild p ss Sh). split.
  - symmetry. apply (Forall3_length _ _ _ _ H3).
  - intros k a Hk.
    destruct (Forall3_nth _ _ _ _ k a H3 Hk) as (y & tk & Hy & _ & HRk & HMk).
    destruct (Rewritten_head _ _ _ HRk)
      as (c & b & rest & -> & Ha & Hl & Hyb & Hstop).
    exists y, c, b. inversion HMk; subst. repeat split; auto.
Qed.

Lemma method_installs_replacements_witness :
  exists y c b,
    nth_error (children (CallExpr "" (Ident "f") [Ident "x"; pkgInterfaceName])) 2
    = Some y /\
    callArg c = Some (StarExpr "*" (Ident "p")) /\ callLeft c = Some b /\
    MadeBy pointerToInterface c /\
    y = rebuild b (slots y) /\ (callRecurse c = false -> y = b).
Proof.
  assert (E : exists i',
             Impl.Inspect pointerToInterface 3 (Some sampleCall) (NewInspector tt)
             = Returned (Some (CallExpr "" (Ident "f") [Ident "x"; pkgInterfaceName]))
                 i')
    by (eexists; vm_compute; reflexivity).
  destruct E as [i' E].
  destruct (method_installs_replacements unit pointerToInterface 3 sampleCall
              (NewInspector tt) _ i' E eq_refl) as (p & Hp & _ & H).
  injection Hp as <-. apply (H 2). reflexivity.
Defined.
